(** * URL shortener: short-code generator and URL admission pipeline

    A shallow embedding of [main.py]: the short-code generator
    [next_short_string] with its helper [increment_symbol], and the
    admission checks of [main_page] ([remove_non_ascii], [validate_schema],
    [validate_url], [safe_check] and the self-reference test), and the
    validation of [reverse_page] ([validate_short_url], [get_url_string]).
    The recursion of the generator is also given with the frames of the
    interpreter counted, and the functions that parse a url with the
    failure of the parser.

    Byte strings ([str], the codes read back from the database and the
    alphabet) are [string]; the submitted form value is a [unicode] object
    and is modelled as a list of code points. *)

From Stdlib Require Import ZArith Ascii String DecimalString Lia.
From stdpp Require Import list strings.

Local Open Scope string_scope.
Local Open Scope list_scope.
Local Open Scope Z_scope.

(** ** The sequence generator *)

Module Generator.

(** [allowed_characters = string.ascii_lowercase + string.ascii_uppercase
    + string.digits] and [maxchar_limit = len(allowed_characters)]. *)
Definition allowed_characters : string :=
  "abcdefghijklmnopqrstuvwxyz" ++ "ABCDEFGHIJKLMNOPQRSTUVWXYZ" ++ "0123456789".

Definition maxchar_limit : Z :=
  Z.of_nat (String.length allowed_characters).

(** [s.find(letter)] for a one-character [letter]: the first index at which
    it occurs, [-1] when it does not occur. *)
Fixpoint str_find (s : list ascii) (letter : ascii) : Z :=
  match s with
  | [] => -1
  | c :: s' =>
      if decide (c = letter) then 0
      else let r := str_find s' letter in
           if r <? 0 then -1 else r + 1
  end.

(** [increment_symbol(letter)]:
    [allowed_characters[(allowed_characters.find(letter) + 1) % maxchar_limit]].
    The index is a remainder modulo the length of the alphabet, so the
    subscript is always in range (lemma [increment_symbol_index]); the
    default of the lookup is never used. *)
Definition increment_symbol (letter : ascii) : ascii :=
  let alphabet := list_ascii_of_string allowed_characters in
  default "a"%char
    (alphabet !! Z.to_nat ((str_find alphabet letter + 1) mod maxchar_limit)).

(** [list(enumerate(prev_string))]. *)
Definition enumerate {A} (l : list A) : list (nat * A) :=
  zip (seq 0 (length l)) l.

(** The body shared by the two incrementing branches of the loop:
    [new_string[num] = increment_symbol(symbol)], then
    [if num == 0 and new_string[num] == 'a': new_string.append('a')]. *)
Definition increment_at (num : nat) (symbol : ascii)
    (new_string : list ascii) : list ascii :=
  let new_string := <[num := increment_symbol symbol]> new_string in
  if decide (num = 0%nat ∧ new_string !! num = Some "a"%char)
  then new_string ++ ["a"%char]
  else new_string.

(** The [for num, symbol in reversed(list(enumerate(prev_string)))] loop,
    with [len = len(prev_string)] and the mutable list [new_string] passed
    as state; the last branch is the [break]. *)
Fixpoint carry_loop (len : nat) (items : list (nat * ascii))
    (new_string : list ascii) : list ascii :=
  match items with
  | [] => new_string
  | (num, symbol) :: items' =>
      if decide ((num + 1)%nat = len) then
        carry_loop len items' (increment_at num symbol new_string)
      else if decide (new_string !! (num + 1)%nat = Some "a"%char) then
        carry_loop len items' (increment_at num symbol new_string)
      else new_string
  end.

(** Lines 228-254 of [next_short_string]: [new_string = list(prev_string)],
    the loop, and [''.join(new_string)]. *)
Definition increment_string (prev_string : string) : string :=
  let chars := list_ascii_of_string prev_string in
  string_of_list_ascii
    (carry_loop (length chars) (reverse (enumerate chars)) chars).

(** [next_short_string(prev_string=None, protected=False)].  [protected] is
    a list of strings; the default [False] and the empty list are both
    falsy, so both are the empty list here.  [None] and [''] are the two
    falsy values of [prev_string].  Each recursive call of the source
    consumes one unit of [fuel]. *)
Fixpoint next_short_string_fuel (fuel : nat) (prev_string : option string)
    (protected : list string) : option string :=
  match fuel with
  | O => None
  | S fuel' =>
      match prev_string with
      | None | Some "" => Some "a"
      | Some prev =>
          let new_string := increment_string prev in
          if decide (new_string ∈ protected)
          then next_short_string_fuel fuel' (Some new_string) protected
          else Some new_string
      end
  end.

(** The generator as a total function: [length protected + 1] calls are
    always enough (lemma [next_short_string_fuel_enough]). *)
Definition next_short_string (prev_string : option string)
    (protected : list string) : string :=
  default "" (next_short_string_fuel (S (length protected)) prev_string protected).

(** *** The ordering of codes *)

(** The rank of a symbol is its position in the alphabet ([-1] for a
    character outside it). *)
Definition symbol_rank (c : ascii) : Z :=
  str_find (list_ascii_of_string allowed_characters) c.

(** A valid code: a non-empty string over the alphabet. *)
Definition valid_code (s : string) : bool :=
  bool_decide (s ≠ "")
  && forallb (λ c, bool_decide (c ∈ list_ascii_of_string allowed_characters))
       (list_ascii_of_string s).

(** Symbol-by-symbol comparison from the most significant position, for
    rank lists of the same length. *)
Fixpoint lex_lt (a b : list Z) : Prop :=
  match a, b with
  | x :: a', y :: b' => x < y ∨ (x = y ∧ lex_lt a' b')
  | _, _ => False
  end.

(** Codes are compared first by length, then symbol by symbol; [rk] ranks
    the symbols. *)
Definition code_lt_by (rk : ascii → Z) (s t : string) : Prop :=
  (String.length s < String.length t)%nat
  ∨ (String.length s = String.length t
     ∧ lex_lt (rk <$> list_ascii_of_string s) (rk <$> list_ascii_of_string t)).

Definition code_lt : string → string → Prop := code_lt_by symbol_rank.

(** The codes issued one after the other from [c], without reserved codes:
    [issued n c] is the result of [n] calls, each fed the code before it. *)
Definition issued (n : nat) (c : string) : string :=
  Nat.iter n (λ s, next_short_string (Some s) []) c.

(** *** Definitions used in the proofs *)

(** The rank with which [increment_symbol] computes: a character outside
    the alphabet has [find = -1] and is incremented to the first symbol,
    exactly as the last symbol of the alphabet is. *)
Definition wrap_rank (c : ascii) : Z := symbol_rank c mod maxchar_limit.

(** Rightmost-carry increment by structural recursion on the reversed list
    of symbols (least significant first); the boolean is the carry out of
    the most significant symbol. *)
Fixpoint carry_rev (r : list ascii) : list ascii * bool :=
  match r with
  | [] => ([], true)
  | x :: r' =>
      if decide (increment_symbol x = "a"%char)
      then ("a"%char :: (carry_rev r').1, (carry_rev r').2)
      else (increment_symbol x :: r', false)
  end.

(** What is known of every character; decidable, and checked by
    evaluation on each of the 256 characters. *)
Definition symbol_facts (c : ascii) : Prop :=
  increment_symbol c ∈ list_ascii_of_string allowed_characters
  ∧ 0 <= wrap_rank c < maxchar_limit
  ∧ (increment_symbol c = "a"%char → wrap_rank c = maxchar_limit - 1)
  ∧ (increment_symbol c ≠ "a"%char →
     wrap_rank (increment_symbol c) = wrap_rank c + 1)
  ∧ (c ∈ list_ascii_of_string allowed_characters →
     wrap_rank c = symbol_rank c).

#[global] Instance symbol_facts_dec c : Decision (symbol_facts c).
Proof. unfold symbol_facts. apply _. Defined.

(** *** The program's reserved paths and the number a code stands for *)

(** [protected_paths], the list that [main_page] passes as [protected]. *)
Definition protected_paths : list string := ["reverse"].

(** The number a code stands for when its symbols are read as the digits
    [1] to [62] of a positional numeral without zero, the last symbol being
    the least significant; [rk] ranks the symbols. *)
Definition code_value_by (rk : ascii → Z) (s : string) : Z :=
  foldr (λ c v, rk c + 1 + maxchar_limit * v) 0
    (reverse (list_ascii_of_string s)).

Definition code_value : string → Z := code_value_by symbol_rank.

(** More of what is known of every character; decidable, and checked by
    evaluation on each of the 256 characters. *)
Definition successor_facts (c : ascii) : Prop :=
  (c ∉ list_ascii_of_string allowed_characters →
   increment_symbol c = "a"%char ∧ symbol_rank c = -1)
  ∧ (c ∈ list_ascii_of_string allowed_characters →
     0 <= symbol_rank c < maxchar_limit
     ∧ symbol_rank (increment_symbol c)
       = (symbol_rank c + 1) mod maxchar_limit
     ∧ (increment_symbol c = "a"%char → c = "9"%char)).

#[global] Instance successor_facts_dec c : Decision (successor_facts c).
Proof. unfold successor_facts. apply _. Defined.

(** *** The recursion and the limit of the interpreter *)

(** How a call of [next_short_string] ends: it returns a code, or the
    interpreter raises [RuntimeError] (maximum recursion depth
    exceeded). *)
Inductive call_outcome : Type :=
  | Returns (code : string)
  | RuntimeError.

(** [next_short_string] with the frames of the interpreter counted:
    [frames] is the number of frames that may still be entered when the
    function is called.  The call enters one frame; for a previous string
    that is not empty the loop calls [increment_symbol], one frame deeper;
    the recursive call of line 258 is left with one frame less. *)
Fixpoint next_short_string_frames (frames : nat) (prev_string : option string)
    (protected : list string) : call_outcome :=
  match frames with
  | O => RuntimeError
  | S frames' =>
      match prev_string with
      | None | Some "" => Returns "a"
      | Some prev =>
          match frames' with
          | O => RuntimeError
          | S _ =>
              let new_string := increment_string prev in
              if decide (new_string ∈ protected)
              then next_short_string_frames frames' (Some new_string) protected
              else Returns new_string
          end
      end
  end.



End Generator.

(** ** Python strings of the admission pipeline *)

Module PyStr.

(** A Python string, [str] or [unicode], as the list of its code points. *)
Definition pystr : Type := list N.

(** A literal. *)
Definition u (s : string) : pystr := N_of_ascii <$> list_ascii_of_string s.

(** [s.startswith(p)]. *)
Fixpoint startswith (p s : pystr) : bool :=
  match p, s with
  | [], _ => true
  | _ :: _, [] => false
  | a :: p', b :: s' => bool_decide (a = b) && startswith p' s'
  end.

(** [s.find(sub)]: the lowest index at which [sub] occurs in [s], [-1] when
    it does not occur. *)
Fixpoint find (sub s : pystr) : Z :=
  if startswith sub s then 0
  else match s with
       | [] => -1
       | _ :: s' => let r := find sub s' in if r <? 0 then -1 else r + 1
       end.

(** [sub in s]. *)
Definition contains (sub s : pystr) : bool := 0 <=? find sub s.

(** The position a slice bound stands for in a string of length [len]:
    a negative bound counts from the end, and bounds are clipped. *)
Definition slice_bound (len : nat) (i : Z) : nat :=
  Z.to_nat (Z.min (Z.of_nat len) (Z.max 0 (if i <? 0 then i + Z.of_nat len else i))).

(** [s[:hi]] and [s[lo:hi]]. *)
Definition slice_to (s : pystr) (hi : Z) : pystr :=
  take (slice_bound (length s) hi) s.

Definition slice (s : pystr) (lo hi : Z) : pystr :=
  drop (slice_bound (length s) lo) (take (slice_bound (length s) hi) s).

(** [unicode.isspace] of one character (the whitespace table of Python
    2.7). *)
Definition isspace (c : N) : bool :=
  bool_decide (c ∈ [9; 10; 11; 12; 13; 28; 29; 30; 31; 32; 133; 160; 5760;
                    6158; 8192; 8193; 8194; 8195; 8196; 8197; 8198; 8199;
                    8200; 8201; 8202; 8232; 8233; 8239; 8287; 12288]%N).

(** [s.lstrip()], [s.rstrip()] and [s.strip()]. *)
Fixpoint lstrip (s : pystr) : pystr :=
  match s with
  | [] => []
  | c :: s' => if isspace c then lstrip s' else s
  end.

Definition rstrip (s : pystr) : pystr := reverse (lstrip (reverse s)).

Definition strip (s : pystr) : pystr := rstrip (lstrip s).

(** [string.punctuation]: the 32 ASCII punctuation characters, which are
    the code points 33-47, 58-64, 91-96 and 123-126. *)
Definition punctuation : pystr :=
  N.of_nat <$> (seq 33 15 ++ seq 58 7 ++ seq 91 6 ++ seq 123 4).

(** [s.lower()] of a byte string: the letters [A]-[Z] only. *)
Definition lower (s : pystr) : pystr :=
  (λ c, if ((65 <=? c) && (c <=? 90))%N then (c + 32)%N else c) <$> s.

(** [sep.join(l)]. *)
Fixpoint join (sep : pystr) (l : list pystr) : pystr :=
  match l with
  | [] => []
  | [x] => x
  | x :: l' => x ++ sep ++ join sep l'
  end.

(** [str(n)] of an integer. *)
Definition str_of_int (n : Z) : pystr :=
  u (NilZero.string_of_int (Z.to_int n)).

(** [s[lo:]]. *)
Definition slice_from (s : pystr) (lo : Z) : pystr :=
  drop (slice_bound (length s) lo) s.

End PyStr.

(** ** The admission pipeline *)

Module Admission.
Import PyStr.

(** The exceptions of the pipeline.  Every [raise UserWarning(...)] of the
    source is one rejection; [category] says which statement raised it,
    under the names of the rejection categories ([JsonFailure] is the
    statement of [safe_check] that answers a payload that does not
    parse). *)
Inductive category : Type :=
  | IllegalSchema | NotReachable | NotFound | Unsafe | JsonFailure
  | SelfReference.

Inductive exception : Type :=
  | UserWarning (cat : category) (msg : pystr)
  | KeyError
  | StopIteration
  | TypeError
  | ValueError
  | IndexError
  | AttributeError
  | RequestException.

(** The outcome of a call: a value, or an exception that leaves it. *)
Inductive result (A : Type) : Type :=
  | Return (a : A)
  | Raise (e : exception).
Arguments Return {A} a.
Arguments Raise {A} e.

(** Statements in sequence: an exception leaves the rest undone. *)
#[global] Instance result_bind : MBind result := λ A B k r,
  match r with
  | Return a => k a
  | Raise e => Raise e
  end.

(** What [requests.get] returns: the fields of the response that are
    read. *)
Record response : Type := Response {
  status_code : Z;
  reason : pystr;
  text : pystr
}.

(** A value of [json.loads].  An object is the list of its items in the
    order in which the Python dictionary is iterated. *)
#[local] Unset Elimination Schemes.
Inductive json : Type :=
  | JNull
  | JBool (b : bool)
  | JInt (z : Z)
  | JFloat (literal : pystr)
  | JStr (s : pystr)
  | JList (l : list json)
  | JDict (d : list (pystr * json)).
#[local] Set Elimination Schemes.

(** [d[k]] of a dictionary with string keys. *)
Fixpoint dict_get {V} (d : list (pystr * V)) (k : pystr) : option V :=
  match d with
  | [] => None
  | (k', v) :: d' => if decide (k' = k) then Some v else dict_get d' k
  end.

(** [l[i]] of a sequence: a negative index counts from the end. *)
Definition seq_get {A} (l : list A) (i : Z) : option A :=
  let i := if i <? 0 then i + Z.of_nat (length l) else i in
  if i <? 0 then None else l !! Z.to_nat i.

(** [next(iter(x))]. *)
Definition py_next_iter (x : json) : result json :=
  match x with
  | JDict [] | JList [] | JStr [] => Raise StopIteration
  | JDict ((k, _) :: _) => Return (JStr k)
  | JList (v :: _) => Return v
  | JStr (c :: _) => Return (JStr [c])
  | _ => Raise TypeError
  end.

(** [x[k]]. *)
Definition py_getitem (x k : json) : result json :=
  match x, k with
  | JDict d, JStr s =>
      match dict_get d s with Some v => Return v | None => Raise KeyError end
  | JDict _, (JList _ | JDict _) => Raise TypeError
  | JDict _, _ => Raise KeyError
  | JList l, JInt i =>
      match seq_get l i with Some v => Return v | None => Raise IndexError end
  | JList l, JBool b =>
      match seq_get l (if b then 1 else 0) with
      | Some v => Return v
      | None => Raise IndexError
      end
  | JStr s, JInt i =>
      match seq_get s i with
      | Some c => Return (JStr [c])
      | None => Raise IndexError
      end
  | JStr s, JBool b =>
      match seq_get s (if b then 1 else 0) with
      | Some c => Return (JStr [c])
      | None => Raise IndexError
      end
  | _, _ => Raise TypeError
  end.

(** [x.keys()]. *)
Definition py_keys (x : json) : result (list pystr) :=
  match x with
  | JDict d => Return (d.*1)
  | _ => Raise AttributeError
  end.

(** [unwanted_WOT_categories]. *)
Definition unwanted_WOT_categories : list (Z * pystr) :=
  [ (101, u "Malware or viruses"); (103, u "Phishing attempts");
    (104, u "Scams"); (105, u "Potentially illegal elements");
    (203, u "Suspicious elements"); (204, u "Hate, discrimination");
    (205, u "Spam"); (206, u "Potentially unwanted programs") ].

Fixpoint category_name (table : list (Z * pystr)) (code : Z) : result pystr :=
  match table with
  | [] => Raise KeyError
  | (c, name) :: table' =>
      if decide (c = code) then Return name else category_name table' code
  end.

(** [remove_non_ascii(s)]: [''.join(i for i in s if ord(i) < 128)]. *)
Definition remove_non_ascii (s : pystr) : pystr :=
  filter (λ i, (i < 128)%N) s.

(** Lines 334-337 of [main_page]: [long_url.strip()], then
    [remove_non_ascii]. *)
Definition normalize (long_url : pystr) : pystr :=
  remove_non_ascii (strip long_url).

(** The [for char in url] loop of [validate_schema], over the characters
    [rest] that are still to come: the first punctuation character ends the
    loop, and sets the schema when it is a colon. *)
Fixpoint scan_schema (url rest : pystr) : pystr :=
  match rest with
  | [] => []
  | char :: rest' =>
      if decide (char ∈ punctuation) then
        if decide (char = 58%N) then slice_to url (find (u ":") url) else []
      else scan_schema url rest'
  end.

(** Lines 110-120 of [validate_schema]: which schema the url has. *)
Definition schema_of (url : pystr) : pystr :=
  if contains (u "://") url then slice_to url (find (u "://") url)
  else scan_schema url url.

Definition illegal_schema_message (schema : pystr) : pystr :=
  u "Illegal schema <b>" ++ schema
    ++ u "</b> detected in URL. Only <i>http and https</i> are permitted.".

(** [validate_schema(url)]. *)
Definition validate_schema (url : pystr) : result pystr :=
  let schema := schema_of url in
  if decide (schema ∈ [u "http"; u "https"]) then Return url
  else if decide (schema = []) then Return (u "http://" ++ url)
  else Raise (UserWarning IllegalSchema (illegal_schema_message schema)).

(** The calls that leave the program: [requests.get] ([None] when it raises),
    [urlparse.urlparse] (its [scheme] and [netloc]), [json.loads] ([None]
    when it raises [ValueError]), the built-in [int] on a string ([None]
    when it raises [ValueError]); and the values read from outside:
    [request.url] and [WOT_API_KEY]. *)
Section Pipeline.

Variable requests_get : pystr → option response.
Variable urlparse_scheme urlparse_netloc : pystr → pystr.
Variable json_loads : pystr → option json.
Variable py_int : pystr → option Z.
Variable request_url : pystr.
Variable WOT_API_KEY : pystr.

(** [get_domain(url, keep_schema=False)]. *)
Definition get_domain (url : pystr) (keep_schema : bool) : pystr :=
  let domain := [] in
  let domain :=
    if keep_schema && negb (bool_decide (urlparse_scheme url = []))
    then domain ++ urlparse_scheme url ++ u "://"
    else domain in
  domain ++ urlparse_netloc url.

(** [validate_url(url)]. *)
Definition validate_url (url : pystr) : result pystr :=
  match requests_get url with
  | None =>
      Raise (UserWarning NotReachable
               (u "Could not resolve <b>" ++ url
                  ++ u "</b>. Make sure the URL is valid."))
  | Some request =>
      Return (str_of_int (status_code request) ++ u ": " ++ reason request)
  end.

(** Lines 343-346 of [main_page]: the probe and the test of its status. *)
Definition check_status (long_url : pystr) : result pystr :=
  url_status ← validate_url long_url;
  if contains (u "404") url_status then
    Raise (UserWarning NotFound
             (u "The domain <b>" ++ get_domain long_url false
                ++ u "</b> exists, but this specific URL gives a 404 error."))
  else Return url_status.

(** The [try] block of [safe_check] up to the [raise]: the names of the
    categories of the first entry of the answer. *)
Fixpoint category_names (keys : list pystr) : result (list pystr) :=
  match keys with
  | [] => Return []
  | i :: keys' =>
      match py_int i with
      | None => Raise ValueError
      | Some code =>
          name ← category_name unwanted_WOT_categories code;
          names ← category_names keys';
          Return (name :: names)
      end
  end.

Definition wot_categories (request_json : json) : result (list pystr) :=
  first ← py_next_iter request_json;
  entry ← py_getitem request_json first;
  categories ← py_getitem entry (JStr (u "categories"));
  keys ← py_keys categories;
  category_names keys.

Definition wot_request (domain : pystr) : pystr :=
  u "http://api.mywot.com/0.4/public_link_json2?hosts=" ++ domain
    ++ u "/&callback=process&key=" ++ WOT_API_KEY.

Definition json_failure_message : pystr :=
  u "Critical JSON failure - Probably an expired WOT API key.".

Definition unsafe_message (categories : list pystr) : pystr :=
  u "We don't trust this page. This page may contain "
    ++ lower (join (u ", ") categories) ++ u ".".

(** [safe_check(url)].  The call of [requests.get] is outside every [try]
    of the function. *)
Definition safe_check (url : pystr) : result bool :=
  let url := get_domain url false in
  match requests_get (wot_request url) with
  | None => Raise RequestException
  | Some request =>
      let json_data := slice (text request) 8 (-1) in
      match json_loads json_data with
      | None => Raise (UserWarning JsonFailure json_failure_message)
      | Some request_json =>
          match wot_categories request_json with
          | Return categories =>
              Raise (UserWarning Unsafe (unsafe_message categories))
          | Raise KeyError | Raise StopIteration => Return true
          | Raise e => Raise e
          end
      end
  end.

(** Lines 352-354 of [main_page]:
    [request.url in long_url and request.url != long_url]. *)
Definition check_self_reference (long_url : pystr) : result unit :=
  if contains request_url long_url
     && negb (bool_decide (request_url = long_url))
  then Raise (UserWarning SelfReference
                (u "You cannot simplify a URL that's already been simplified."))
  else Return ().

(** The [try] block of [main_page] for a posted [long_url] that is not
    empty: the admitted url and [url_is_safe], or the exception. *)
Definition admission (long_url : pystr) : result (pystr * bool) :=
  let long_url := normalize long_url in
  long_url ← validate_schema long_url;
  check_status long_url;;
  url_is_safe ← safe_check long_url;
  check_self_reference long_url;;
  Return (long_url, url_is_safe).

End Pipeline.

(** *** The words of the specification for the schema stage *)

(** The scheme token of a url, as the specification describes it: the text
    before the first [://]; or, when the url has no [://], a prefix that is
    free of punctuation and is followed by a colon. *)
Inductive scheme_token (url : pystr) : pystr → Prop :=
  | token_explicit tok rest :
      url = tok ++ u "://" ++ rest →
      (∀ p q, url = p ++ u "://" ++ q → (length tok ≤ length p)%nat) →
      scheme_token url tok
  | token_prefix tok rest :
      (∀ p q, url ≠ p ++ u "://" ++ q) →
      url = tok ++ u ":" ++ rest →
      Forall (λ c, c ∉ punctuation) tok →
      scheme_token url tok.

(** A decimal parser, to run the pipeline where [int] is needed. *)
Fixpoint decimal_digits (acc : Z) (s : pystr) : option Z :=
  match s with
  | [] => Some acc
  | c :: s' =>
      if ((48 <=? c) && (c <=? 57))%N
      then decimal_digits (10 * acc + (Z.of_N c - 48)) s'
      else None
  end.

Definition decimal (s : pystr) : option Z :=
  match s with
  | [] => None
  | _ => decimal_digits 0 s
  end.

(** *** A sample world, to run the pipeline on concrete inputs *)

(** A web in which the reputation service answers [wot_text] and every
    other url answers with the given status line and an empty body. *)
Definition sample_get (status : Z) (phrase wot_text : pystr) (url : pystr)
    : option response :=
  if startswith (u "http://api.mywot.com/") url
  then Some (Response 200 (u "OK") wot_text)
  else Some (Response status phrase []).

(** The scheme and the host of the urls of the examples, all of which are
    [http] urls of the host [example.com]. *)
Definition sample_scheme (url : pystr) : pystr := u "http".
Definition sample_netloc (url : pystr) : pystr := u "example.com".

(** *** The reverse lookup *)

(** What [reverse_page] has when the [try] block is left: the [error] of a
    caught [UserWarning], or the url accepted for the lookup with its
    [url_string]. *)
Inductive reverse_outcome : Type :=
  | ReverseError (error : pystr)
  | ReverseLookup (short_url url_string : pystr).

Definition invalid_short_url_message : pystr :=
  u "Invalid short URL. We can only reverse URLs created by us.".

(** A key that [int] reads as a recognised category code. *)
Definition recognised (py_int : pystr → option Z) (i : pystr) : Prop :=
  ∃ code, py_int i = Some code ∧ code ∈ unwanted_WOT_categories.*1.

(** A web as [sample_get], in which the request to the reputation service
    fails. *)
Definition sample_get_offline (status : Z) (phrase : pystr) (url : pystr)
    : option response :=
  if startswith (u "http://api.mywot.com/") url
  then None
  else Some (Response status phrase []).

End Admission.

(** ** The functions that parse a url, with the failure of the parser *)

(** [Admission.get_domain] takes the scheme and the host of a url that
    [urlparse.urlparse] has parsed.  Here the parser is a partial function,
    and the functions that call it raise its [ValueError]. *)

Module Urlparse.
Import PyStr Admission.

(** What [urlparse.urlparse] returns: the fields that are read. *)
Record parse_result : Type := ParseResult {
  scheme : pystr;
  netloc : pystr;
  path : pystr
}.

Section Parser.

(** [urlparse.urlparse]: [None] when it raises [ValueError], as it does for
    a host with an unbalanced bracket. *)
Variable urlparse : pystr → option parse_result.
Variable requests_get : pystr → option response.
Variable request_url : pystr.

(** [get_domain(url, keep_schema=False)]. *)
Definition get_domain (url : pystr) (keep_schema : bool) : result pystr :=
  match urlparse url with
  | None => Raise ValueError
  | Some parsed =>
      let domain := [] in
      let domain :=
        if keep_schema && negb (bool_decide (scheme parsed = []))
        then domain ++ scheme parsed ++ u "://"
        else domain in
      Return (domain ++ netloc parsed)
  end.

(** [get_url_string(url)]: [parsed.path[1:]]. *)
Definition get_url_string (url : pystr) : result pystr :=
  match urlparse url with
  | None => Raise ValueError
  | Some parsed => Return (slice_from (path parsed) 1)
  end.

(** [validate_short_url(url)]: the url is parsed first, then
    [get_domain(request.url)] is called. *)
Definition validate_short_url (url : pystr) : result bool :=
  match urlparse url with
  | None => Raise ValueError
  | Some parsed =>
      domain ← get_domain request_url false;
      Return (contains domain (netloc parsed)
              && negb (bool_decide (path parsed = []))
              && bool_decide (1 < length (path parsed))%nat)
  end.

(** Lines 343-346 of [main_page]: the probe and the test of its status;
    [get_domain] is called when the message of the rejection is built. *)
Definition check_status (long_url : pystr) : result pystr :=
  url_status ← validate_url requests_get long_url;
  if contains (u "404") url_status then
    domain ← get_domain long_url false;
    Raise (UserWarning NotFound
             (u "The domain <b>" ++ domain
                ++ u "</b> exists, but this specific URL gives a 404 error."))
  else Return url_status.

(** Lines 426-448 of [reverse_page], for a posted [short_url] that is not
    empty: the [try] block with its [except UserWarning], and
    [get_url_string] when [valid_short_url] holds.  An exception other than
    [UserWarning] leaves the function. *)
Definition reverse_validate (short_url : pystr) : result reverse_outcome :=
  let short_url := strip short_url in
  match validate_schema short_url with
  | Raise (UserWarning _ msg) => Return (ReverseError msg)
  | Raise e => Raise e
  | Return short_url =>
      match validate_short_url short_url with
      | Raise (UserWarning _ msg) => Return (ReverseError msg)
      | Raise e => Raise e
      | Return false => Return (ReverseError invalid_short_url_message)
      | Return true =>
          url_string ← get_url_string short_url;
          Return (ReverseLookup short_url url_string)
      end
  end.

End Parser.

End Urlparse.

(** ** Proofs: the sequence generator *)

Module GeneratorProofs.
Import Generator.

Lemma symbol_facts_all (c : ascii) : symbol_facts c.
Proof.
  apply (bool_decide_unpack _).
  destruct c as [[] [] [] [] [] [] [] []]; vm_compute; exact I.
Qed.

Abbreviation alphabet := (list_ascii_of_string allowed_characters).

Lemma increment_symbol_valid c : increment_symbol c ∈ alphabet.
Proof. apply symbol_facts_all. Qed.

Lemma increment_symbol_wrap c :
  increment_symbol c = "a"%char → wrap_rank c = maxchar_limit - 1.
Proof. apply symbol_facts_all. Qed.

Lemma increment_symbol_succ c :
  increment_symbol c ≠ "a"%char →
  wrap_rank (increment_symbol c) = wrap_rank c + 1.
Proof. apply symbol_facts_all. Qed.

Lemma wrap_rank_valid c : c ∈ alphabet → wrap_rank c = symbol_rank c.
Proof. apply symbol_facts_all. Qed.

(** The subscript computed by [increment_symbol] is within the alphabet. *)
Lemma increment_symbol_index c :
  0 <= (symbol_rank c + 1) mod maxchar_limit < maxchar_limit.
Proof. apply Z.mod_pos_bound. reflexivity. Qed.

#[local] Opaque increment_symbol wrap_rank symbol_rank.

(** *** The loop computes the rightmost-carry increment *)

Lemma enumerate_snoc {A} (l : list A) x :
  enumerate (l ++ [x]) = enumerate l ++ [(length l, x)].
Proof.
  unfold enumerate. rewrite length_app, seq_app. simpl.
  rewrite zip_with_app by (by rewrite length_seq). done.
Qed.

Lemma length_enumerate {A} (l : list A) : length (enumerate l) = length l.
Proof.
  unfold enumerate. rewrite length_zip_with_l_eq; by rewrite length_seq.
Qed.

(** Once the symbol to the right was not turned into the first symbol, the
    loop stops at once. *)
Lemma carry_loop_break len pre new_string :
  length pre ≠ len →
  new_string !! length pre ≠ Some "a"%char →
  carry_loop len (reverse (enumerate pre)) new_string = new_string.
Proof.
  intros Hlen Hnext.
  destruct pre as [|y pre _] using rev_ind; [done|].
  rewrite enumerate_snoc, reverse_snoc. simpl.
  rewrite length_app in Hlen, Hnext. simpl in Hlen, Hnext.
  rewrite decide_False by done. by rewrite decide_False.
Qed.

Lemma increment_at_middle pre x tl :
  increment_at (length pre) x (pre ++ x :: tl) =
  if decide (pre = [] ∧ increment_symbol x = "a"%char)
  then increment_symbol x :: tl ++ ["a"%char]
  else pre ++ increment_symbol x :: tl.
Proof.
  unfold increment_at. rewrite insert_app_r_alt by lia.
  rewrite Nat.sub_diag. cbn [insert list_insert].
  rewrite list_lookup_middle by done.
  destruct (decide (pre = [] ∧ increment_symbol x = "a"%char)) as [[-> E]|N].
  - rewrite decide_True; [done|]. by rewrite E.
  - rewrite decide_False; [done|]. intros [Hl E]. apply N. split; [|congruence].
    by destruct pre.
Qed.

Lemma carry_loop_spec pre m :
  pre ≠ [] →
  carry_loop (length pre + m) (reverse (enumerate pre))
    (pre ++ replicate m "a"%char) =
  reverse (carry_rev (reverse pre)).1 ++ replicate m "a"%char
    ++ (if (carry_rev (reverse pre)).2 then ["a"%char] else []).
Proof.
  revert m. induction pre as [|x pre IH] using rev_ind; [done|].
  intros m _.
  rewrite enumerate_snoc, !reverse_snoc, length_app. simpl.
  assert (carry_loop (length pre + 1 + m) (reverse (enumerate pre))
            (increment_at (length pre) x ((pre ++ [x]) ++ replicate m "a"%char))
          = reverse (carry_rev (x :: reverse pre)).1 ++ replicate m "a"%char
            ++ (if (carry_rev (x :: reverse pre)).2 then ["a"%char] else []))
    as Hstep.
  { rewrite <- app_assoc. simpl. rewrite increment_at_middle. simpl.
    destruct (decide (increment_symbol x = "a"%char)) as [E|E].
    - destruct pre as [|p pre'] eqn:Hpre.
      + rewrite decide_True by done. simpl. by rewrite E.
      + rewrite decide_False by (intros [? _]; discriminate).
        rewrite <- Hpre in *.
        rewrite E.
        replace (pre ++ "a"%char :: replicate m "a"%char)
          with (pre ++ replicate (S m) "a"%char) by done.
        replace (length pre + 1 + m)%nat with (length pre + S m)%nat by lia.
        rewrite IH by (subst; done). simpl.
        rewrite reverse_cons, <- app_assoc. done.
    - rewrite decide_False by (intros [_ ?]; done). simpl.
      rewrite carry_loop_break.
      + rewrite reverse_cons, reverse_involutive, <- !app_assoc. simpl.
        by rewrite app_nil_r.
      + lia.
      + rewrite list_lookup_middle by done. congruence. }
  destruct (decide ((length pre + 1)%nat = (length pre + 1 + m)%nat)); [done|].
  rewrite decide_True; [done|].
  rewrite <- app_assoc. simpl.
  rewrite lookup_app_r by lia.
  replace (length pre + 1 - length pre)%nat with 1%nat by lia.
  destruct m; [lia|done].
Qed.

(** [increment_string] is the rightmost-carry increment; a carry out of
    the first symbol appends one more first symbol. *)
Lemma increment_string_carry s :
  s ≠ "" →
  list_ascii_of_string (increment_string s) =
  reverse (carry_rev (reverse (list_ascii_of_string s))).1
    ++ (if (carry_rev (reverse (list_ascii_of_string s))).2 then ["a"%char] else []).
Proof.
  intros Hs. unfold increment_string.
  rewrite list_ascii_of_string_of_list_ascii.
  pose proof (carry_loop_spec (list_ascii_of_string s) 0) as H.
  simpl in H. rewrite Nat.add_0_r, app_nil_r in H. apply H.
  destruct s; [done|]. done.
Qed.

(** *** The two outcomes of an increment *)

Abbreviation wraps := (λ x : ascii, increment_symbol x = "a"%char).

Lemma carry_rev_cases r :
  (Forall wraps r ∧ carry_rev r = (replicate (length r) "a"%char, true))
  ∨ (∃ nines x rest,
        r = nines ++ x :: rest ∧ Forall wraps nines
        ∧ increment_symbol x ≠ "a"%char
        ∧ carry_rev r =
            (replicate (length nines) "a"%char ++ increment_symbol x :: rest,
             false)).
Proof.
  induction r as [|x r IH]; [by left|].
  cbn [carry_rev]. destruct (decide (increment_symbol x = "a"%char)) as [E|E].
  - destruct IH as [[Hall ->]|(nines & y & rest & -> & Hn & Hy & ->)].
    + left. split; [by constructor|done].
    + right. exists (x :: nines), y, rest. repeat split; [by constructor|done].
  - right. exists [], x, r. repeat split; [constructor|done].
Qed.

Lemma length_list_ascii s :
  length (list_ascii_of_string s) = String.length s.
Proof. induction s; simpl; congruence. Qed.

Lemma list_ascii_nonempty s : s ≠ "" ↔ list_ascii_of_string s ≠ [].
Proof. destruct s; simpl; split; congruence. Qed.

(** Either every symbol wraps and the result is one symbol longer and made
    of the first symbol only, or the rightmost symbol that does not wrap is
    replaced by its successor and the symbols to its right by the first
    symbol. *)
Lemma increment_string_cases s :
  s ≠ "" →
  (Forall wraps (list_ascii_of_string s)
   ∧ list_ascii_of_string (increment_string s) =
       replicate (S (String.length s)) "a"%char)
  ∨ (∃ pre x nines,
        list_ascii_of_string s = pre ++ x :: nines
        ∧ Forall wraps nines ∧ increment_symbol x ≠ "a"%char
        ∧ list_ascii_of_string (increment_string s) =
            pre ++ increment_symbol x :: replicate (length nines) "a"%char).
Proof.
  intros Hs. rewrite (increment_string_carry s Hs).
  destruct (carry_rev_cases (reverse (list_ascii_of_string s)))
    as [[Hall ->]|(nines & x & rest & Hr & Hn & Hx & ->)]; cbn [fst snd].
  - left. split; [by apply Forall_reverse|].
    rewrite reverse_replicate, length_reverse, length_list_ascii.
    by rewrite replicate_S_end.
  - right. exists (reverse rest), x, (reverse nines).
    apply (f_equal reverse) in Hr. rewrite reverse_involutive in Hr.
    rewrite Hr, !reverse_app, !reverse_cons, reverse_replicate, length_reverse.
    rewrite <- !app_assoc, app_nil_r. repeat split; try done.
    by apply Forall_reverse.
Qed.

Lemma increment_string_nonempty s : s ≠ "" → increment_string s ≠ "".
Proof.
  intros Hs. apply list_ascii_nonempty.
  destruct (increment_string_cases s Hs) as [[_ ->]|(pre & x & n & _ & _ & _ & ->)].
  - done.
  - by destruct pre.
Qed.

(** *** The ordering is a strict order *)

Lemma lex_lt_app p a b : lex_lt a b → lex_lt (p ++ a) (p ++ b).
Proof. induction p; simpl; auto. Qed.

Lemma lex_lt_irrefl a : ¬ lex_lt a a.
Proof. induction a; simpl; [tauto|]. intros [?|[_ ?]]; [lia|tauto]. Qed.

Lemma lex_lt_trans a b c : lex_lt a b → lex_lt b c → lex_lt a c.
Proof.
  revert b c. induction a as [|x a IH]; intros [|y b] [|z c]; simpl; try tauto.
  intros [?|[-> Hab]] [?|[-> Hbc]]; [left; lia..|].
  right. split; [done|]. by eapply IH.
Qed.

Lemma code_lt_by_irrefl rk s : ¬ code_lt_by rk s s.
Proof. intros [?|[_ H]]; [lia|by apply lex_lt_irrefl in H]. Qed.

Lemma code_lt_by_trans rk s t u :
  code_lt_by rk s t → code_lt_by rk t u → code_lt_by rk s u.
Proof.
  intros [?|[E1 H1]] [?|[E2 H2]]; [left; lia..|].
  right. split; [congruence|]. by eapply lex_lt_trans.
Qed.

Lemma code_lt_by_ne rk s t : code_lt_by rk s t → s ≠ t.
Proof. intros H ->. by apply code_lt_by_irrefl in H. Qed.

(** *** Every increment goes up in the order *)

Lemma increment_string_lt_wrap s :
  s ≠ "" → code_lt_by wrap_rank s (increment_string s).
Proof.
  intros Hs. unfold code_lt_by. rewrite <- !length_list_ascii.
  destruct (increment_string_cases s Hs)
    as [[_ ->]|(pre & x & n & -> & _ & Hx & ->)].
  - left. rewrite length_replicate, length_list_ascii. lia.
  - right. split.
    + rewrite !length_app. simpl. by rewrite length_replicate.
    + rewrite !fmap_app. apply lex_lt_app. rewrite !fmap_cons. simpl. left.
      rewrite increment_symbol_succ by done. lia.
Qed.

(** *** Valid codes *)

Lemma valid_code_spec s :
  valid_code s = true ↔
  s ≠ "" ∧ Forall (λ c, c ∈ alphabet) (list_ascii_of_string s).
Proof.
  unfold valid_code. rewrite andb_true_iff, bool_decide_eq_true.
  apply and_iff_compat_l.
  induction (list_ascii_of_string s) as [|c l IH]; cbn [forallb].
  - split; [constructor|done].
  - rewrite andb_true_iff, bool_decide_eq_true, IH, Forall_cons. done.
Qed.

Lemma first_symbol_valid : "a"%char ∈ alphabet.
Proof. apply (bool_decide_unpack _). vm_compute. exact I. Qed.

Lemma increment_string_valid s :
  valid_code s = true → valid_code (increment_string s) = true.
Proof.
  rewrite !valid_code_spec. intros [Hs Hall].
  split; [by apply increment_string_nonempty|].
  destruct (increment_string_cases s Hs)
    as [[_ ->]|(pre & x & n & E & _ & _ & ->)].
  - apply Forall_replicate, first_symbol_valid.
  - rewrite E in Hall. apply Forall_app in Hall as [Hpre _].
    apply Forall_app. split; [done|]. constructor.
    + apply increment_symbol_valid.
    + apply Forall_replicate, first_symbol_valid.
Qed.

(** On valid codes the two rankings agree. *)
Lemma code_lt_valid s t :
  valid_code s = true → valid_code t = true →
  code_lt_by wrap_rank s t → code_lt s t.
Proof.
  rewrite !valid_code_spec. intros [_ Hs] [_ Ht].
  unfold code_lt, code_lt_by.
  assert (∀ l, Forall (λ c, c ∈ alphabet) l →
               wrap_rank <$> l = symbol_rank <$> l) as Hext.
  { intros l Hl. apply Forall_fmap_ext.
    eapply Forall_impl; [done|]. intros c. apply wrap_rank_valid. }
  by rewrite (Hext _ Hs), (Hext _ Ht).
Qed.

(** *** The codes met by repeated increments *)

Abbreviation increments k c := (Nat.iter k increment_string c).

Lemma increments_nonempty k c : c ≠ "" → increments k c ≠ "".
Proof.
  intros Hc. induction k; [done|]. by apply increment_string_nonempty.
Qed.

Lemma increments_valid k c :
  valid_code c = true → valid_code (increments k c) = true.
Proof.
  intros Hc. induction k; [done|]. by apply increment_string_valid.
Qed.

Lemma increments_lt i j c :
  c ≠ "" → (i < j)%nat →
  code_lt_by wrap_rank (increments i c) (increments j c).
Proof.
  intros Hc Hij. induction j as [|j IH]; [lia|].
  assert (code_lt_by wrap_rank (increments j c) (increments (S j) c)) as Hj.
  { apply increment_string_lt_wrap. by apply increments_nonempty. }
  destruct (decide (i = j)) as [->|]; [done|].
  eapply code_lt_by_trans; [apply IH; lia|done].
Qed.

Lemma increments_inj i j c :
  c ≠ "" → increments i c = increments j c → i = j.
Proof.
  intros Hc E. destruct (Nat.lt_trichotomy i j) as [H|[H|H]]; [|done|].
  - by apply (increments_lt _ _ c Hc), code_lt_by_ne in H.
  - by apply (increments_lt _ _ c Hc), code_lt_by_ne in H.
Qed.

Lemma remove_dups_length (r : list string) :
  (length (remove_dups r) ≤ length r)%nat.
Proof.
  apply submseteq_length, NoDup_submseteq; [apply NoDup_remove_dups|].
  intros x. by rewrite elem_of_remove_dups.
Qed.

(** As long as every increment met so far is reserved, no more of them
    were met than there are reserved strings. *)
Lemma increments_reserved_bound c (r : list string) j :
  c ≠ "" →
  (∀ i, (1 ≤ i ≤ j)%nat → increments i c ∈ r) →
  (j ≤ length (remove_dups r))%nat.
Proof.
  intros Hc Hin.
  assert (length ((λ i, increments i c) <$> seq 1 j) = j) as <-
    by (by rewrite length_fmap, length_seq).
  apply submseteq_length, NoDup_submseteq.
  - apply NoDup_fmap_2_strong; [|apply NoDup_seq].
    intros x y _ _. by apply increments_inj.
  - intros x [i [-> Hi]]%list_elem_of_fmap.
    apply elem_of_seq in Hi. apply elem_of_remove_dups, Hin. lia.
Qed.

Lemma next_short_string_fuel_step fuel prev r :
  prev ≠ "" →
  next_short_string_fuel (S fuel) (Some prev) r =
  if decide (increment_string prev ∈ r)
  then next_short_string_fuel fuel (Some (increment_string prev)) r
  else Some (increment_string prev).
Proof. by destruct prev. Qed.

Lemma next_short_string_fuel_search (r : list string) c :
  c ≠ "" →
  ∀ m j,
    (j + m = S (length (remove_dups r)))%nat →
    (∀ i, (1 ≤ i ≤ j)%nat → increments i c ∈ r) →
    ∃ k, (j < k ≤ S (length (remove_dups r)))%nat
         ∧ (∀ fuel, (k - j ≤ fuel)%nat →
              next_short_string_fuel fuel (Some (increments j c)) r =
              Some (increments k c))
         ∧ (increments k c ∉ r)
         ∧ ∀ i, (1 ≤ i < k)%nat → increments i c ∈ r.
Proof.
  intros Hc m. induction m as [|m IH]; intros j Hj Hin.
  { pose proof (increments_reserved_bound c r j Hc Hin). lia. }
  destruct (decide (increments (S j) c ∈ r)) as [Hr|Hr].
  - destruct (IH (S j)) as (k & Hk & Hfuel & Hout & Hbelow); [lia| |].
    { intros i Hi. destruct (decide (i = S j)) as [->|]; [done|].
      apply Hin. lia. }
    exists k. repeat split; [lia|lia| |done|done].
    intros [|fuel] Hf; [lia|].
    rewrite next_short_string_fuel_step by (by apply increments_nonempty).
    change (increment_string (increments j c)) with (increments (S j) c).
    rewrite decide_True by done. apply Hfuel. lia.
  - exists (S j). repeat split; [lia|lia| |done|].
    + intros [|fuel] Hf; [lia|].
      rewrite next_short_string_fuel_step by (by apply increments_nonempty).
      change (increment_string (increments j c)) with (increments (S j) c).
      by rewrite decide_False.
    + intros i Hi. apply Hin. lia.
Qed.

(** With fewer calls than reserved increments in a row, the recursion has
    not come to an end. *)
Lemma next_short_string_fuel_short (r : list string) c :
  c ≠ "" →
  ∀ fuel j,
    (∀ i, (j < i ≤ j + fuel)%nat → increments i c ∈ r) →
    next_short_string_fuel fuel (Some (increments j c)) r = None.
Proof.
  intros Hc fuel. induction fuel as [|fuel IH]; intros j Hin; [done|].
  rewrite next_short_string_fuel_step by (by apply increments_nonempty).
  change (increment_string (increments j c)) with (increments (S j) c).
  rewrite decide_True by (apply Hin; lia).
  apply IH. intros i Hi. apply Hin. lia.
Qed.

(** The result of the generator for a non-empty previous string: the
    first increment that is not reserved, found after [k] calls. *)
Lemma next_short_string_search c (r : list string) :
  c ≠ "" →
  ∃ k, (1 ≤ k ≤ S (length (remove_dups r)))%nat
       ∧ (∀ fuel, (k ≤ fuel)%nat →
            next_short_string_fuel fuel (Some c) r = Some (increments k c))
       ∧ (∀ fuel, (fuel < k)%nat →
            next_short_string_fuel fuel (Some c) r = None)
       ∧ next_short_string (Some c) r = increments k c
       ∧ (increments k c ∉ r)
       ∧ ∀ i, (1 ≤ i < k)%nat → increments i c ∈ r.
Proof.
  intros Hc.
  destruct (next_short_string_fuel_search r c Hc (S (length (remove_dups r))) 0)
    as (k & Hk & Hfuel & Hout & Hbelow); [lia|intros; lia|].
  exists k. repeat split; [lia|lia| | | |done|done].
  - intros fuel Hf. apply (Hfuel fuel). lia.
  - intros fuel Hf. apply (next_short_string_fuel_short r c Hc fuel 0).
    intros i Hi. apply Hbelow. lia.
  - unfold next_short_string.
    change (increments 0 c) with c in Hfuel.
    rewrite (Hfuel (S (length r))); [done|].
    pose proof (remove_dups_length r). lia.
Qed.

(** Any number of calls from [length protected + 1] on gives the result of
    the total function: the fuel of the definition is enough. *)
Lemma next_short_string_fuel_enough fuel prev (r : list string) :
  (S (length r) ≤ fuel)%nat →
  next_short_string_fuel fuel prev r = Some (next_short_string prev r).
Proof.
  intros Hf. destruct (decide (prev = None ∨ prev = Some "")) as [[->| ->]|Hp].
  - destruct fuel; [lia|done].
  - destruct fuel; [lia|done].
  - destruct prev as [c|]; [|tauto].
    assert (c ≠ "") as Hc by (intros ->; tauto).
    destruct (next_short_string_search c r Hc) as (k & Hk & Hfuel & _ & -> & _).
    apply Hfuel. pose proof (remove_dups_length r). lia.
Qed.

(** The recursion of the source, as an equation of the total function. *)
Lemma next_short_string_unfold prev (r : list string) :
  prev ≠ "" →
  next_short_string (Some prev) r =
  if decide (increment_string prev ∈ r)
  then next_short_string (Some (increment_string prev)) r
  else increment_string prev.
Proof.
  intros Hp.
  pose proof (next_short_string_fuel_enough (S (S (length r))) (Some prev) r) as H1.
  rewrite next_short_string_fuel_step in H1 by done.
  destruct (decide (increment_string prev ∈ r)).
  - rewrite next_short_string_fuel_enough in H1 by lia.
    specialize (H1 ltac:(lia)). congruence.
  - specialize (H1 ltac:(lia)). congruence.
Qed.

(** *** The generator without and with reserved codes *)

Lemma next_short_string_plain c :
  c ≠ "" → next_short_string (Some c) [] = increment_string c.
Proof.
  intros Hc. rewrite next_short_string_unfold by done.
  rewrite decide_False; [done|]. apply not_elem_of_nil.
Qed.

Lemma issued_increments n c : c ≠ "" → issued n c = increments n c.
Proof.
  intros Hc. induction n as [|n IH]; [done|].
  change (issued (S n) c) with (next_short_string (Some (issued n c)) []).
  rewrite IH. apply next_short_string_plain. by apply increments_nonempty.
Qed.

Lemma valid_code_nonempty c : valid_code c = true → c ≠ "".
Proof. rewrite valid_code_spec. tauto. Qed.

Lemma increments_code_lt i j c :
  valid_code c = true → (i < j)%nat →
  code_lt (increments i c) (increments j c).
Proof.
  intros Hc Hij.
  apply code_lt_valid; [by apply increments_valid..|].
  apply increments_lt; [by apply valid_code_nonempty|done].
Qed.

(** C1: for every valid prior code [c] the next code is strictly greater
    than [c] in the ordering of codes (first by length, then symbol by
    symbol from the most significant position, by the rank of the symbols
    in the alphabet), and it is a valid code again; hence the codes issued
    one after the other from [c] are strictly increasing and no code is
    issued twice. *)
Theorem next_short_string_increasing c :
  valid_code c = true →
  code_lt c (next_short_string (Some c) [])
  ∧ valid_code (next_short_string (Some c) []) = true
  ∧ ∀ i j, (i < j)%nat →
      code_lt (issued i c) (issued j c) ∧ issued i c ≠ issued j c.
Proof.
  intros Hc. pose proof (valid_code_nonempty c Hc) as Hne.
  rewrite next_short_string_plain by done. repeat split.
  - apply (increments_code_lt 0 1 c Hc). lia.
  - by apply increment_string_valid.
  - rewrite !issued_increments by done. by apply increments_code_lt.
  - rewrite !issued_increments by done.
    eapply code_lt_by_ne. by apply increments_code_lt.
Qed.

Lemma next_short_string_increasing_witness :
  valid_code "az9" = true
  ∧ code_lt "az9" (next_short_string (Some "az9") [])
  ∧ issued 1 "az9" ≠ issued 3 "az9".
Proof.
  split; [reflexivity|].
  destruct (next_short_string_increasing "az9" eq_refl) as (Hlt & _ & Hiss).
  split; [exact Hlt|]. apply (Hiss 1%nat 3%nat). lia.
Defined.

(** C2: the code misses the example of its own docstring.  For
    ["aBCf99"] the generator returns ["aBCgaa"] (the increment stops at the
    first symbol that does not wrap), where the docstring of the function
    and the claim state ["aCDgaa"]; the six other examples are returned as
    stated. *)
Theorem next_short_string_examples :
  next_short_string None [] = "a"
  ∧ next_short_string (Some "a") [] = "b"
  ∧ next_short_string (Some "z") [] = "A"
  ∧ next_short_string (Some "9") [] = "aa"
  ∧ next_short_string (Some "abz") [] = "abA"
  ∧ next_short_string (Some "aBCf99") [] = "aBCgaa"
  ∧ next_short_string (Some "9999") [] = "aaaaa".
Proof. vm_compute. repeat split. Qed.

(** The code returned for ["aBCf99"] is not the ["aCDgaa"] of the
    docstring. *)
Lemma next_short_string_example_aBCf99 :
  next_short_string (Some "aBCf99") [] ≠ "aCDgaa".
Proof. vm_compute. discriminate. Qed.

(** C3: for every valid prior code [c] and every list of reserved strings
    [r], the code returned is not in [r] and is strictly greater than [c];
    when the plain increment of [c] is reserved, the code returned differs
    from it and is strictly greater than it as well. *)
Theorem next_short_string_avoids_reserved c (r : list string) :
  valid_code c = true →
  (next_short_string (Some c) r ∉ r)
  ∧ code_lt c (next_short_string (Some c) r)
  ∧ (next_short_string (Some c) [] ∈ r →
     next_short_string (Some c) r ≠ next_short_string (Some c) []
     ∧ code_lt (next_short_string (Some c) []) (next_short_string (Some c) r)).
Proof.
  intros Hc. pose proof (valid_code_nonempty c Hc) as Hne.
  destruct (next_short_string_search c r Hne)
    as (k & Hk & _ & _ & -> & Hout & Hbelow).
  split; [done|]. split.
  - apply (increments_code_lt 0 k c Hc). lia.
  - rewrite next_short_string_plain by done. intros Hin.
    assert (1 < k)%nat as Hk1.
    { destruct (decide (k = 1%nat)) as [->|]; [done|lia]. }
    split.
    + intros E. by rewrite E in Hout.
    + by apply (increments_code_lt 1 k c Hc).
Qed.

Lemma next_short_string_avoids_reserved_witness :
  valid_code "reversd" = true
  ∧ (next_short_string (Some "reversd") ["reverse"; "reversf"]
      ∉ ["reverse"; "reversf"])
  ∧ code_lt "reversd"
      (next_short_string (Some "reversd") ["reverse"; "reversf"]).
Proof.
  split; [reflexivity|].
  destruct (next_short_string_avoids_reserved "reversd"
              ["reverse"; "reversf"] eq_refl) as (Hout & Hlt & _).
  split; [exact Hout|exact Hlt].
Defined.

(** *** The recursion within the frames of the interpreter *)

Lemma next_short_string_frames_step frames prev r :
  prev ≠ "" →
  next_short_string_frames (S (S frames)) (Some prev) r =
  if decide (increment_string prev ∈ r)
  then next_short_string_frames (S frames) (Some (increment_string prev)) r
  else Returns (increment_string prev).
Proof. by destruct prev. Qed.

Lemma next_short_string_frames_low frames prev r :
  prev ≠ "" → (frames ≤ 1)%nat →
  next_short_string_frames frames (Some prev) r = RuntimeError.
Proof. destruct prev; [done|]. destruct frames as [|[|?]]; [done..|lia]. Qed.

(** From the [j]-th increment on, a run of reserved increments up to, but
    without, the [k]-th takes [k - j] nested calls, and one frame more for
    [increment_symbol] in the last of them. *)
Lemma next_short_string_frames_run (r : list string) c k :
  c ≠ "" →
  ∀ m j frames,
    k = (j + S m)%nat →
    (∀ i, (j < i < k)%nat → increments i c ∈ r) →
    increments k c ∉ r →
    next_short_string_frames frames (Some (increments j c)) r =
    if decide (S m + 1 ≤ frames)%nat
    then Returns (increments k c) else RuntimeError.
Proof.
  intros Hc m. induction m as [|m IH]; intros j frames -> Hin Hout.
  - destruct frames as [|[|frames]].
    + by rewrite decide_False by lia.
    + rewrite decide_False by lia.
      apply next_short_string_frames_low; [by apply increments_nonempty|lia].
    + rewrite decide_True by lia.
      rewrite next_short_string_frames_step by (by apply increments_nonempty).
      change (increment_string (increments j c)) with (increments (S j) c).
      rewrite Nat.add_1_r in *. by rewrite decide_False.
  - destruct frames as [|[|frames]].
    + by rewrite decide_False by lia.
    + rewrite decide_False by lia.
      apply next_short_string_frames_low; [by apply increments_nonempty|lia].
    + rewrite next_short_string_frames_step by (by apply increments_nonempty).
      change (increment_string (increments j c)) with (increments (S j) c).
      rewrite decide_True by (apply Hin; lia).
      rewrite (IH (S j) (S frames)); [|lia|intros i Hi; apply Hin; lia|done].
      destruct (decide (S m + 1 ≤ S frames)%nat);
        [by rewrite decide_True by lia|by rewrite decide_False by lia].
Qed.

(** How a call ends, for a previous string that is not empty: the result
    is the first increment that is not reserved, the [k]-th, and it is
    returned when [k + 1] frames are left; with fewer the interpreter
    raises [RuntimeError]. *)
Lemma next_short_string_frames_outcome c (r : list string) :
  c ≠ "" →
  ∃ k, (1 ≤ k ≤ length (remove_dups r) + 1)%nat
       ∧ next_short_string (Some c) r = increments k c
       ∧ (increments k c ∉ r)
       ∧ (∀ i, (1 ≤ i < k)%nat → increments i c ∈ r)
       ∧ ∀ frames,
           next_short_string_frames frames (Some c) r =
           if decide (k + 1 ≤ frames)%nat
           then Returns (next_short_string (Some c) r) else RuntimeError.
Proof.
  intros Hc.
  destruct (next_short_string_search c r Hc)
    as (k & Hk & _ & _ & E & Hout & Hbelow).
  exists k. split; [lia|]. split; [done|]. split; [done|]. split; [done|].
  intros frames. rewrite E.
  destruct k as [|m]; [lia|].
  apply (next_short_string_frames_run r c (S m) Hc m 0 frames);
    [done| |done].
  intros i Hi. apply Hbelow. lia.
Qed.





End GeneratorProofs.

(** ** More on the sequence generator *)

Module GeneratorExtra.
Import Generator GeneratorProofs.

Lemma successor_facts_all (c : ascii) : successor_facts c.
Proof.
  apply (bool_decide_unpack _).
  destruct c as [[] [] [] [] [] [] [] []]; vm_compute; exact I.
Qed.

(** X1: [increment_symbol] is the cyclic successor of the alphabet, and it
    never fails: its result is always a symbol of the alphabet; on a symbol
    of the alphabet the rank goes up by one modulo the size of the
    alphabet, so that only ['9'] gives ['a']; a character outside the
    alphabet, for which [find] answers [-1], gives ['a']. *)
Theorem increment_symbol_cyclic (c : ascii) :
  increment_symbol c ∈ alphabet
  ∧ (c ∈ alphabet →
     symbol_rank (increment_symbol c) = (symbol_rank c + 1) mod maxchar_limit
     ∧ (increment_symbol c = "a"%char ↔ c = "9"%char))
  ∧ (c ∉ alphabet → increment_symbol c = "a"%char).
Proof.
  destruct (successor_facts_all c) as [Hout Hin].
  split; [apply increment_symbol_valid|]. split.
  - intros Hc. destruct (Hin Hc) as (_ & Hrank & H9).
    split; [done|]. split; [done|]. by intros ->.
  - intros Hc. by apply Hout.
Qed.

Lemma increment_symbol_cyclic_witness :
  symbol_rank (increment_symbol "z") = (symbol_rank "z" + 1) mod maxchar_limit
  ∧ increment_symbol "!" = "a"%char.
Proof.
  split.
  - apply (increment_symbol_cyclic "z").
    apply (bool_decide_unpack _). vm_compute. exact I.
  - apply (increment_symbol_cyclic "!").
    apply (bool_decide_unpack _). vm_compute. exact I.
Defined.

#[local] Opaque increment_symbol wrap_rank symbol_rank.

(** *** The value of a code *)

Abbreviation value_rev rk :=
  (foldr (λ (c : ascii) v, rk c + 1 + maxchar_limit * v) 0).

Lemma wrap_rank_first : wrap_rank "a" = 0.
Proof. by vm_compute. Qed.

Lemma maxchar_limit_62 : maxchar_limit = 62.
Proof. reflexivity. Qed.

(** The reversed result of an increment, with the symbol that a carry out
    of the most significant symbol adds at the most significant end. *)
Lemma carry_rev_value r :
  value_rev wrap_rank
    ((carry_rev r).1 ++ (if (carry_rev r).2 then ["a"%char] else []))
  = value_rev wrap_rank r + 1.
Proof.
  induction r as [|x r IH]; cbn [carry_rev].
  - cbn. rewrite wrap_rank_first. lia.
  - destruct (decide (increment_symbol x = "a"%char)) as [E|E]; cbn [fst snd].
    + cbn [app foldr]. rewrite IH, wrap_rank_first.
      rewrite (increment_symbol_wrap x E), maxchar_limit_62. lia.
    + rewrite app_nil_r. cbn [foldr].
      rewrite (increment_symbol_succ x E). lia.
Qed.

Lemma increment_string_reverse s :
  s ≠ "" →
  reverse (list_ascii_of_string (increment_string s)) =
  (carry_rev (reverse (list_ascii_of_string s))).1
    ++ (if (carry_rev (reverse (list_ascii_of_string s))).2
        then ["a"%char] else []).
Proof.
  intros Hs. rewrite (increment_string_carry s Hs).
  rewrite reverse_app, reverse_involutive.
  destruct (carry_rev_cases (reverse (list_ascii_of_string s)))
    as [[_ ->]|(nines & x & rest & _ & _ & _ & ->)]; cbn [fst snd].
  - change (reverse ["a"%char]) with (replicate 1 "a"%char).
    change ["a"%char] with (replicate 1 "a"%char).
    rewrite <- !replicate_add. f_equal. lia.
  - by rewrite app_nil_r.
Qed.

Lemma increment_string_value_wrap s :
  s ≠ "" →
  code_value_by wrap_rank (increment_string s) = code_value_by wrap_rank s + 1.
Proof.
  intros Hs. unfold code_value_by.
  rewrite (increment_string_reverse s Hs). apply carry_rev_value.
Qed.

Lemma code_value_valid s :
  valid_code s = true → code_value_by wrap_rank s = code_value s.
Proof.
  rewrite valid_code_spec. intros [_ Hs]. unfold code_value, code_value_by.
  apply Forall_reverse in Hs.
  induction Hs as [|c l Hc _ IH]; [done|].
  cbn [foldr]. by rewrite IH, (wrap_rank_valid c Hc).
Qed.

Lemma increment_string_value c :
  valid_code c = true →
  code_value (increment_string c) = code_value c + 1.
Proof.
  intros Hc. pose proof (valid_code_nonempty c Hc) as Hne.
  rewrite <- !code_value_valid by (done || by apply increment_string_valid).
  by apply increment_string_value_wrap.
Qed.

(** X2: the generator is a counter: for a valid code [c], the number that
    the next code stands for is the number of [c] plus one. *)
Theorem next_short_string_counts c :
  valid_code c = true →
  code_value (next_short_string (Some c) []) = code_value c + 1.
Proof.
  intros Hc. pose proof (valid_code_nonempty c Hc) as Hne.
  rewrite next_short_string_plain by done. by apply increment_string_value.
Qed.

Lemma next_short_string_counts_witness :
  code_value (next_short_string (Some "a99") []) = code_value "a99" + 1.
Proof. apply (next_short_string_counts "a99"). reflexivity. Defined.

(** *** Codes and numbers correspond one to one *)

Lemma str_find_lookup l c :
  0 <= str_find l c → l !! Z.to_nat (str_find l c) = Some c.
Proof.
  induction l as [|a l IH]; cbn [str_find]; [lia|].
  destruct (decide (a = c)) as [->|]; [done|]. cbv zeta.
  destruct (Z.ltb_spec (str_find l c) 0); [lia|]. intros _.
  rewrite Z2Nat.inj_add by lia. rewrite Nat.add_comm. by apply IH.
Qed.

#[local] Transparent symbol_rank.

Lemma symbol_rank_inj c c' :
  0 <= symbol_rank c → symbol_rank c = symbol_rank c' → c = c'.
Proof.
  unfold symbol_rank. intros H E.
  pose proof (str_find_lookup _ _ H) as H1.
  rewrite E in H, H1. pose proof (str_find_lookup _ _ H) as H2. congruence.
Qed.

#[local] Opaque symbol_rank.

Lemma symbol_rank_range c :
  c ∈ alphabet → 0 <= symbol_rank c < maxchar_limit.
Proof. intros Hc. by apply successor_facts_all. Qed.

Lemma value_rev_nonneg r :
  Forall (λ c, c ∈ alphabet) r → 0 <= value_rev symbol_rank r.
Proof.
  induction 1 as [|c r Hc _ IH]; cbn [foldr]; [lia|].
  pose proof (symbol_rank_range c Hc). revert IH.
  generalize (value_rev symbol_rank r). rewrite maxchar_limit_62 in *. lia.
Qed.

Lemma value_rev_inj r r' :
  Forall (λ c, c ∈ alphabet) r → Forall (λ c, c ∈ alphabet) r' →
  value_rev symbol_rank r = value_rev symbol_rank r' → r = r'.
Proof.
  intros Hr. revert r'.
  induction Hr as [|c r Hc Hr IH]; intros r' Hr' E; destruct Hr' as [|c' r' Hc' Hr'];
    cbn [foldr] in E.
  - done.
  - pose proof (symbol_rank_range c' Hc'). pose proof (value_rev_nonneg r' Hr').
    revert E H0. generalize (value_rev symbol_rank r').
    rewrite maxchar_limit_62 in *. lia.
  - pose proof (symbol_rank_range c Hc). pose proof (value_rev_nonneg r Hr).
    revert E H0. generalize (value_rev symbol_rank r).
    rewrite maxchar_limit_62 in *. lia.
  - pose proof (symbol_rank_range c Hc). pose proof (symbol_rank_range c' Hc').
    assert (symbol_rank c = symbol_rank c'
            ∧ value_rev symbol_rank r = value_rev symbol_rank r') as [E1 E2].
    { revert E. generalize (value_rev symbol_rank r) (value_rev symbol_rank r').
      rewrite maxchar_limit_62 in *. lia. }
    f_equal; [apply symbol_rank_inj; [lia|done]|by apply IH].
Qed.

Lemma list_ascii_of_string_inj s t :
  list_ascii_of_string s = list_ascii_of_string t → s = t.
Proof.
  intros E. rewrite <- (string_of_list_ascii_of_string s),
    <- (string_of_list_ascii_of_string t). by rewrite E.
Qed.

Lemma code_value_inj s t :
  valid_code s = true → valid_code t = true →
  code_value s = code_value t → s = t.
Proof.
  rewrite !valid_code_spec. intros [_ Hs] [_ Ht] E.
  apply list_ascii_of_string_inj.
  apply (inj reverse). apply value_rev_inj; [by apply Forall_reverse..|done].
Qed.

Lemma code_value_increments k c :
  valid_code c = true →
  code_value (increments k c) = code_value c + Z.of_nat k.
Proof.
  intros Hc. induction k as [|k IH].
  { change (increments 0 c) with c. lia. }
  change (increments (S k) c) with (increment_string (increments k c)).
  rewrite increment_string_value by (by apply increments_valid). lia.
Qed.

(** A valid code that stands for a greater number is met by incrementing. *)
Lemma increments_reach s t :
  valid_code s = true → valid_code t = true →
  code_value s <= code_value t →
  t = increments (Z.to_nat (code_value t - code_value s)) s.
Proof.
  intros Hs Ht Hle. apply code_value_inj; [done|by apply increments_valid|].
  rewrite code_value_increments by done. lia.
Qed.

Lemma code_lt_value s t :
  valid_code s = true → valid_code t = true →
  code_lt s t ↔ code_value s < code_value t.
Proof.
  intros Hs Ht. split.
  - intros Hlt. destruct (Z.lt_ge_cases (code_value s) (code_value t)) as [|Hge];
      [done|exfalso].
    pose proof (increments_reach t s Ht Hs Hge) as E.
    destruct (Z.to_nat (code_value s - code_value t)) as [|n] eqn:En.
    + cbn in E. subst. by apply code_lt_by_irrefl in Hlt.
    + assert (code_lt t s) as Hts.
      { rewrite E. apply (increments_code_lt 0 (S n) t Ht). lia. }
      by eapply code_lt_by_irrefl, code_lt_by_trans.
  - intros Hlt. rewrite (increments_reach s t Hs Ht) by lia.
    apply (increments_code_lt 0 _ s Hs). lia.
Qed.

(** X3: on valid codes the ordering of the codes (length first, then
    symbol by symbol) is the ordering of the numbers they stand for, and
    two valid codes that stand for the same number are the same code. *)
Theorem code_value_order s t :
  valid_code s = true → valid_code t = true →
  (code_lt s t ↔ code_value s < code_value t)
  ∧ (code_value s = code_value t → s = t).
Proof.
  intros Hs Ht. split; [by apply code_lt_value|by apply code_value_inj].
Qed.

Lemma code_value_order_witness :
  code_lt "9" "aa" ↔ code_value "9" < code_value "aa".
Proof. apply (code_value_order "9" "aa"); reflexivity. Defined.

(** X4: starting from ["a"], the code issued for an empty previous string,
    the generator issues every valid code, each at the place of its number:
    the valid code [s] is the code issued after [code_value s - 1] calls;
    and two valid codes with the same next code are the same code. *)
Theorem next_short_string_enumerates s :
  valid_code s = true →
  1 <= code_value s
  ∧ issued (Z.to_nat (code_value s - 1)) (next_short_string None []) = s
  ∧ ∀ t, valid_code t = true →
      next_short_string (Some s) [] = next_short_string (Some t) [] → s = t.
Proof.
  intros Hs.
  assert (valid_code "a" = true) as Ha by reflexivity.
  assert (code_value "a" = 1) as Hv by (by vm_compute).
  assert (1 <= code_value s) as Hpos.
  { destruct (Z.lt_ge_cases (code_value s) 1) as [Hlt|]; [|done].
    rewrite <- Hv in Hlt. apply code_lt_value in Hlt; [|done..].
    destruct Hlt as [Hlen|[Hlen Hlex]].
    - apply valid_code_nonempty in Hs. destruct s; [done|]. cbn in Hlen. lia.
    - destruct s as [|c [|c' s]]; try done. cbn in Hlex.
      assert (c ∈ alphabet) as Hc.
      { apply valid_code_spec in Hs as [_ Hs]. by inversion Hs. }
      pose proof (symbol_rank_range c Hc).
      assert (symbol_rank "a" = 0) as H0 by (by vm_compute).
      rewrite H0 in Hlex. lia. }
  split; [done|]. split.
  - change (next_short_string None []) with "a".
    rewrite issued_increments by done. symmetry.
    rewrite (increments_reach "a" s Ha Hs) at 1 by lia. by rewrite Hv.
  - intros t Ht E. apply code_value_inj; [done..|].
    rewrite !next_short_string_plain in E by (by apply valid_code_nonempty).
    apply (f_equal code_value) in E.
    rewrite !increment_string_value in E by done. lia.
Qed.

Lemma next_short_string_enumerates_witness :
  issued (Z.to_nat (code_value "ab" - 1)) (next_short_string None []) = "ab".
Proof.
  exact (proj1 (proj2 (next_short_string_enumerates "ab" eq_refl))).
Defined.

(** X5: no code is skipped without need: for a valid code [c] and reserved
    strings [r], the code returned is the least valid code above [c] that
    is not reserved. *)
Theorem next_short_string_least c (r : list string) t :
  valid_code c = true → valid_code t = true →
  code_lt c t → t ∉ r →
  t = next_short_string (Some c) r ∨ code_lt (next_short_string (Some c) r) t.
Proof.
  intros Hc Ht Hlt Hout. pose proof (valid_code_nonempty c Hc) as Hne.
  destruct (next_short_string_search c r Hne)
    as (k & Hk & _ & _ & -> & _ & Hbelow).
  apply code_lt_value in Hlt; [|done..].
  pose proof (increments_reach c t Hc Ht ltac:(lia)) as E.
  set (m := Z.to_nat (code_value t - code_value c)) in *.
  assert (1 ≤ m)%nat by lia.
  destruct (Nat.lt_trichotomy m k) as [Hm|[->|Hm]].
  - exfalso. apply Hout. rewrite E. apply Hbelow. lia.
  - by left.
  - right. rewrite E. by apply increments_code_lt.
Qed.

Lemma next_short_string_least_witness :
  "reversh" = next_short_string (Some "reversd") ["reverse"; "reversf"]
  ∨ code_lt (next_short_string (Some "reversd") ["reverse"; "reversf"])
      "reversh".
Proof.
  apply next_short_string_least; [reflexivity|reflexivity| |].
  - apply (code_lt_value "reversd" "reversh"); [reflexivity..|].
    by vm_compute.
  - apply (bool_decide_unpack _). vm_compute. exact I.
Defined.

(** *** The carry rule in closed form *)

Lemma increment_symbol_last : increment_symbol "9" = "a"%char.
Proof. by vm_compute. Qed.

Lemma increment_symbol_wraps_iff c :
  increment_symbol c = "a"%char ↔ c = "9"%char ∨ c ∉ alphabet.
Proof.
  destruct (successor_facts_all c) as [Hout Hin]. split.
  - intros E. destruct (decide (c ∈ alphabet)) as [Hc|Hc]; [|by right].
    left. by apply Hin.
  - intros [->|Hc]; [apply increment_symbol_last|by apply Hout].
Qed.

Lemma carry_rev_nines n :
  carry_rev (replicate n "9"%char) = (replicate n "a"%char, true).
Proof.
  induction n as [|n IH]; [done|]. cbn [replicate carry_rev].
  rewrite decide_True by apply increment_symbol_last. by rewrite IH.
Qed.

Lemma carry_rev_nines_then n x rest :
  increment_symbol x ≠ "a"%char →
  carry_rev (replicate n "9"%char ++ x :: rest)
  = (replicate n "a"%char ++ increment_symbol x :: rest, false).
Proof.
  intros Hx. induction n as [|n IH]; cbn [replicate app carry_rev].
  - by rewrite decide_False.
  - rewrite decide_True by apply increment_symbol_last. by rewrite IH.
Qed.

Lemma string_of_list_nonempty (l : list ascii) :
  l ≠ [] → string_of_list_ascii l ≠ "".
Proof. by destruct l. Qed.

(** X6: the successor in closed form.  When the code ends in [n] symbols
    ['9'] after a symbol [x] of the alphabet other than ['9'], the symbols
    before [x] are kept, [x] is replaced by its successor and every ['9']
    by ['a']; a code made of ['9'] only becomes a code of ['a'] only that
    is one symbol longer. *)
Theorem increment_string_carry_rule (n : nat) :
  (∀ pre x,
     x ∈ alphabet → x ≠ "9"%char →
     increment_string (string_of_list_ascii (pre ++ x :: replicate n "9"%char))
     = string_of_list_ascii
         (pre ++ increment_symbol x :: replicate n "a"%char))
  ∧ increment_string (string_of_list_ascii (replicate (S n) "9"%char))
    = string_of_list_ascii (replicate (S (S n)) "a"%char).
Proof.
  split.
  - intros pre x Hx H9. apply list_ascii_of_string_inj.
    rewrite increment_string_carry
      by (apply string_of_list_nonempty; by destruct pre).
    rewrite !list_ascii_of_string_of_list_ascii.
    rewrite reverse_app, reverse_cons, reverse_replicate, <- app_assoc.
    cbn [app]. rewrite carry_rev_nines_then.
    + cbn [fst snd]. rewrite app_nil_r, reverse_app, reverse_cons,
        reverse_involutive, reverse_replicate, <- app_assoc. done.
    + rewrite increment_symbol_wraps_iff. intros [?|?]; done.
  - apply list_ascii_of_string_inj.
    rewrite increment_string_carry by (by apply string_of_list_nonempty).
    rewrite !list_ascii_of_string_of_list_ascii.
    rewrite reverse_replicate, carry_rev_nines. cbn [fst snd].
    rewrite reverse_replicate.
    change ["a"%char] with (replicate 1 "a"%char).
    rewrite <- replicate_add. f_equal. lia.
Qed.

Lemma increment_string_carry_rule_witness :
  increment_string "aBCf99" = "aBCgaa".
Proof.
  apply (proj1 (increment_string_carry_rule 2)
           ["a"; "B"; "C"]%char "f"%char).
  - apply (bool_decide_unpack _). vm_compute. exact I.
  - discriminate.
Defined.

(** X7: an increment never shortens a string and adds at most one symbol;
    it adds one exactly when every symbol is ['9'] or is outside the
    alphabet. *)
Theorem increment_string_length s :
  s ≠ "" →
  (String.length s ≤ String.length (increment_string s)
     ≤ S (String.length s))%nat
  ∧ (String.length (increment_string s) = S (String.length s)
     ↔ Forall (λ x, x = "9"%char ∨ x ∉ alphabet) (list_ascii_of_string s)).
Proof.
  intros Hs. rewrite <- !length_list_ascii.
  destruct (increment_string_cases s Hs)
    as [[Hall ->]|(pre & x & nines & E & _ & Hx & ->)].
  - rewrite length_replicate, length_list_ascii. split; [lia|].
    split; [intros _|done].
    eapply Forall_impl; [done|]. intros c. apply increment_symbol_wraps_iff.
  - rewrite E, !length_app. cbn [length]. rewrite length_replicate.
    split; [lia|]. split; [lia|]. intros Hall. exfalso.
    apply Forall_app in Hall as [_ Hall]. inversion Hall as [|? ? Hx' _].
    by apply increment_symbol_wraps_iff in Hx'.
Qed.

Lemma increment_string_length_witness :
  String.length (increment_string "9!9") = S (String.length "9!9").
Proof.
  apply (increment_string_length "9!9"); [discriminate|].
  repeat (apply List.Forall_cons || apply List.Forall_nil);
    first [by left|right; apply (bool_decide_unpack _); vm_compute; exact I].
Defined.

(** X8: a previous string that is absent or empty is answered with ["a"]
    before the reserved strings are looked at: ["a"] is returned even when
    it is reserved. *)
Theorem next_short_string_empty (r : list string) :
  next_short_string None r = "a"
  ∧ next_short_string (Some "") r = "a"
  ∧ ("a" ∈ r → next_short_string None r ∈ r).
Proof. repeat split. by intros ?. Qed.

Lemma next_short_string_empty_witness :
  next_short_string None ["a"] ∈ ["a"].
Proof.
  apply (next_short_string_empty ["a"]).
  apply (bool_decide_unpack _). vm_compute. exact I.
Defined.

(** X9: with the program's [protected_paths] the code issued after a
    non-empty previous string is never ["reverse"]: it is the plain
    increment, except when that is ["reverse"], and then it is
    ["reversf"]. *)
Theorem next_short_string_protected_paths c :
  c ≠ "" →
  next_short_string (Some c) protected_paths ≠ "reverse"
  ∧ (increment_string c ≠ "reverse" →
     next_short_string (Some c) protected_paths = increment_string c)
  ∧ (increment_string c = "reverse" →
     next_short_string (Some c) protected_paths = "reversf").
Proof.
  intros Hc. rewrite next_short_string_unfold by done.
  unfold protected_paths.
  destruct (decide (increment_string c ∈ ["reverse"])) as [Hin|Hout].
  - apply list_elem_of_singleton in Hin. rewrite Hin.
    assert (next_short_string (Some "reverse") ["reverse"] = "reversf") as ->
      by (by vm_compute).
    repeat split; done.
  - rewrite list_elem_of_singleton in Hout. repeat split; done.
Qed.

Lemma next_short_string_protected_paths_witness :
  next_short_string (Some "reversd") protected_paths = "reversf".
Proof.
  apply (next_short_string_protected_paths "reversd"); [discriminate|].
  by vm_compute.
Defined.

(** X10: how the regeneration ends for every non-empty previous string,
    also one with characters outside the alphabet.  The result is the first
    increment that is not reserved, found with [k] generation steps, [k]
    between one and the number of distinct reserved strings plus one; it is
    returned when at least [k + 1] frames are left to the call, and
    otherwise the interpreter raises [RuntimeError]; a result is never
    reserved and never empty. *)
Theorem next_short_string_outcome prev (r : list string) :
  prev ≠ "" →
  ∃ k, (1 ≤ k ≤ length (remove_dups r) + 1)%nat
       ∧ (∀ frames,
            next_short_string_frames frames (Some prev) r =
            if decide (k + 1 ≤ frames)%nat
            then Returns (next_short_string (Some prev) r)
            else RuntimeError)
       ∧ next_short_string (Some prev) r = Nat.iter k increment_string prev
       ∧ (∀ i, (1 ≤ i < k)%nat → Nat.iter i increment_string prev ∈ r)
       ∧ (next_short_string (Some prev) r ∉ r)
       ∧ next_short_string (Some prev) r ≠ "".
Proof.
  intros Hp.
  destruct (next_short_string_frames_outcome prev r Hp)
    as (k & Hk & E & Hout & Hbelow & Hframes).
  exists k. split; [done|]. split; [done|]. split; [done|]. split; [done|].
  rewrite E. split; [done|]. by apply increments_nonempty.
Qed.

Lemma next_short_string_outcome_witness :
  ∃ k, (1 ≤ k ≤ 3)%nat
       ∧ next_short_string_frames 2 (Some "!9") ["aaa"; "aab"] =
         (if decide (k + 1 ≤ 2)%nat
          then Returns (next_short_string (Some "!9") ["aaa"; "aab"])
          else RuntimeError).
Proof.
  destruct (next_short_string_outcome "!9" ["aaa"; "aab"])
    as (k & Hk & Hframes & _); [discriminate|].
  exists k. split; [exact Hk|exact (Hframes 2%nat)].
Defined.


End GeneratorExtra.

(** ** Proofs: the admission pipeline *)

Module AdmissionProofs.
Import PyStr Admission.

(** *** Normalization *)

Lemma lstrip_spec s :
  ∃ lead, s = lead ++ lstrip s
          ∧ Forall (λ c, isspace c = true) lead
          ∧ ∀ c, head (lstrip s) = Some c → isspace c = false.
Proof.
  induction s as [|a s (lead & E & Hlead & Hhead)]; cbn [lstrip].
  - exists []. repeat split; [constructor|done].
  - destruct (isspace a) eqn:Ha.
    + exists (a :: lead). repeat split; [by rewrite E at 1|by constructor|done].
    + exists []. repeat split; [constructor|]. intros c [= <-]. done.
Qed.

Lemma rstrip_spec s :
  ∃ trail, s = rstrip s ++ trail
           ∧ Forall (λ c, isspace c = true) trail
           ∧ ∀ c, last (rstrip s) = Some c → isspace c = false.
Proof.
  destruct (lstrip_spec (reverse s)) as (lead & E & Hlead & Hhead).
  exists (reverse lead). unfold rstrip. repeat split.
  - rewrite <- reverse_app, <- E. by rewrite reverse_involutive.
  - by apply Forall_reverse.
  - intros c. rewrite last_reverse. apply Hhead.
Qed.

(** [strip] takes away a run of whitespace at each end and leaves a core
    that neither starts nor ends with whitespace. *)
Lemma strip_spec s :
  ∃ lead trail,
    s = lead ++ strip s ++ trail
    ∧ Forall (λ c, isspace c = true) lead
    ∧ Forall (λ c, isspace c = true) trail
    ∧ (∀ c, head (strip s) = Some c → isspace c = false)
    ∧ (∀ c, last (strip s) = Some c → isspace c = false).
Proof.
  destruct (lstrip_spec s) as (lead & E1 & Hlead & Hhead).
  destruct (rstrip_spec (lstrip s)) as (trail & E2 & Htrail & Hlast).
  exists lead, trail. unfold strip. repeat split; try done.
  - by rewrite <- E2.
  - intros c Hc. apply Hhead. rewrite E2.
    by destruct (rstrip (lstrip s)).
Qed.

(** C8, as the code has it: normalization takes the surrounding whitespace
    away from the raw input and then removes the characters whose code
    point is 128 or more, and no others: a character below 128 inside the
    trimmed input, a control character included, is kept. *)
Theorem normalize_spec raw :
  ∃ lead core trail,
    raw = lead ++ core ++ trail
    ∧ Forall (λ c, isspace c = true) lead
    ∧ Forall (λ c, isspace c = true) trail
    ∧ (∀ c, head core = Some c → isspace c = false)
    ∧ (∀ c, last core = Some c → isspace c = false)
    ∧ normalize raw = filter (λ i, (i < 128)%N) core
    ∧ (∀ c, c ∈ normalize raw ↔ (c < 128)%N ∧ c ∈ core).
Proof.
  destruct (strip_spec raw) as (lead & trail & E & Hlead & Htrail & Hh & Hl).
  exists lead, (strip raw), trail.
  split; [done|]. do 5 (split; [done|]).
  intros c. unfold normalize, remove_non_ascii.
  apply (list_elem_of_filter (λ i, (i < 128)%N)).
Qed.

Lemma normalize_spec_witness :
  ∃ core, normalize [32; 233; 97; 9; 98; 10]%N = filter (λ i, (i < 128)%N) core
          ∧ (9%N ∈ normalize [32; 233; 97; 9; 98; 10]%N ↔ (9 < 128)%N ∧ 9%N ∈ core).
Proof.
  destruct (normalize_spec [32; 233; 97; 9; 98; 10]%N)
    as (_ & core & _ & _ & _ & _ & _ & _ & E & Hin).
  exists core. split; [exact E|exact (Hin 9%N)].
Defined.

(** C8, as stated, fails: NUL, BEL and TAB inside the string survive
    normalization. *)
Lemma normalize_keeps_control_characters :
  normalize [97; 0; 7; 9; 98]%N = [97; 0; 7; 9; 98]%N.
Proof. reflexivity. Qed.

Section PipelineProofs.

Variable requests_get : pystr → option response.
Variable urlparse_scheme urlparse_netloc : pystr → pystr.
Variable json_loads : pystr → option json.
Variable py_int : pystr → option Z.
Variable request_url : pystr.
Variable WOT_API_KEY : pystr.

#[local] Abbreviation get_domain := (get_domain urlparse_scheme urlparse_netloc).
#[local] Abbreviation check_status :=
  (check_status requests_get urlparse_scheme urlparse_netloc).
#[local] Abbreviation safe_check :=
  (safe_check requests_get urlparse_scheme urlparse_netloc json_loads py_int
     WOT_API_KEY).
#[local] Abbreviation admission :=
  (admission requests_get urlparse_scheme urlparse_netloc json_loads py_int
     request_url WOT_API_KEY).

(** *** The reachability stage *)

Lemma check_status_unreachable long_url :
  requests_get long_url = None →
  ∃ msg, check_status long_url = Raise (UserWarning NotReachable msg).
Proof.
  intros H. unfold Admission.check_status, validate_url. rewrite H.
  by eexists.
Qed.

Lemma check_status_404 long_url request :
  requests_get long_url = Some request →
  status_code request = 404 →
  ∃ msg, check_status long_url = Raise (UserWarning NotFound msg).
Proof.
  intros H E. unfold Admission.check_status, validate_url. rewrite H, E.
  by eexists.
Qed.

(** *** The reputation stage *)

Lemma category_name_known table code :
  code ∈ table.*1 → ∃ name, category_name table code = Return name.
Proof.
  induction table as [|[c name] table IH]; cbn [category_name fmap list_fmap fst].
  - by intros ?%elem_of_nil.
  - intros Hin. destruct (decide (c = code)); [by eexists|].
    apply IH. apply elem_of_cons in Hin as [?|?]; [congruence|done].
Qed.

Lemma category_name_unknown table code :
  code ∉ table.*1 → category_name table code = Raise KeyError.
Proof.
  induction table as [|[c name] table IH]; cbn [category_name fmap list_fmap fst];
    [done|].
  intros Hin. apply not_elem_of_cons in Hin as [? ?].
  rewrite decide_False by congruence. by apply IH.
Qed.

(** The keys are looked up in order: when the first key that is not a
    recognised code is an integer, the lookup raises [KeyError]. *)
Lemma category_names_unknown known k code rest :
  Forall (λ i, ∃ c, py_int i = Some c ∧ c ∈ unwanted_WOT_categories.*1) known →
  py_int k = Some code →
  code ∉ unwanted_WOT_categories.*1 →
  category_names py_int (known ++ k :: rest) = Raise KeyError.
Proof.
  intros Hknown Hk Hcode.
  induction Hknown as [|i known (c & Hi & Hc) _ IH]; cbn [app category_names].
  - rewrite Hk. by rewrite category_name_unknown.
  - rewrite Hi. destruct (category_name_known _ _ Hc) as [name ->].
    cbn [mbind result_bind]. by rewrite IH.
Qed.

Lemma category_names_some_unknown keys :
  Forall (λ i, is_Some (py_int i)) keys →
  (∃ k code, k ∈ keys ∧ py_int k = Some code
             ∧ code ∉ unwanted_WOT_categories.*1) →
  category_names py_int keys = Raise KeyError.
Proof.
  induction 1 as [|i keys [c Hi] _ IH]; intros (k & code & Hin & Hk & Hcode).
  { by apply elem_of_nil in Hin. }
  destruct (decide (c ∈ unwanted_WOT_categories.*1)) as [Hc|Hc].
  - cbn [category_names]. rewrite Hi.
    destruct (category_name_known _ _ Hc) as [name ->].
    cbn [mbind result_bind]. rewrite IH; [done|].
    exists k, code. repeat split; [|done..].
    apply elem_of_cons in Hin as [->|?]; [|done]. congruence.
  - apply (category_names_unknown [] i c keys); [constructor|done..].
Qed.

Lemma admission_unfold raw long_url status :
  validate_schema (normalize raw) = Return long_url →
  check_status long_url = Return status →
  admission raw =
  (url_is_safe ← safe_check long_url;
   check_self_reference request_url long_url;;
   Return (long_url, url_is_safe)).
Proof.
  intros H1 H2. unfold Admission.admission. rewrite H1. cbn [mbind result_bind].
  by rewrite H2.
Qed.

(** C4, as the code has it: an answer of the reputation service whose
    payload does not parse as JSON makes [safe_check] raise a rejection
    with the message "Critical JSON failure - Probably an expired WOT API
    key.", and the admission of a url that came this far is rejected with
    it. *)
Theorem safe_check_json_failure long_url request :
  requests_get (wot_request WOT_API_KEY (get_domain long_url false))
    = Some request →
  json_loads (slice (text request) 8 (-1)) = None →
  safe_check long_url = Raise (UserWarning JsonFailure json_failure_message)
  ∧ ∀ raw status,
      validate_schema (normalize raw) = Return long_url →
      check_status long_url = Return status →
      admission raw = Raise (UserWarning JsonFailure json_failure_message).
Proof.
  intros Hget Hjson.
  assert (safe_check long_url =
          Raise (UserWarning JsonFailure json_failure_message)) as Hsafe.
  { unfold Admission.safe_check. by rewrite Hget, Hjson. }
  split; [done|]. intros raw status H1 H2.
  rewrite (admission_unfold raw long_url status H1 H2). by rewrite Hsafe.
Qed.

(** C10: when the first entry of the answer has a [categories] object whose
    keys are all integer codes and one of them is outside the recognised
    enumeration, [safe_check] returns [True], whatever recognised codes the
    object has besides, and the admission goes on to the self-reference
    test with [url_is_safe = True]. *)
Theorem safe_check_unknown_category long_url request host entry others cats :
  requests_get (wot_request WOT_API_KEY (get_domain long_url false))
    = Some request →
  json_loads (slice (text request) 8 (-1))
    = Some (JDict ((host, JDict entry) :: others)) →
  dict_get entry (u "categories") = Some (JDict cats) →
  Forall (λ i, is_Some (py_int i)) cats.*1 →
  (∃ k code, k ∈ cats.*1 ∧ py_int k = Some code
             ∧ code ∉ unwanted_WOT_categories.*1) →
  safe_check long_url = Return true
  ∧ ∀ raw status,
      validate_schema (normalize raw) = Return long_url →
      check_status long_url = Return status →
      admission raw =
      (check_self_reference request_url long_url;; Return (long_url, true)).
Proof.
  intros Hget Hjson Hcats Hint Hunknown.
  assert (safe_check long_url = Return true) as Hsafe.
  { unfold Admission.safe_check. rewrite Hget, Hjson.
    unfold wot_categories, py_next_iter, py_getitem.
    cbn [mbind result_bind dict_get]. rewrite decide_True by done.
    cbn [mbind result_bind]. rewrite Hcats. cbn [mbind result_bind py_keys].
    by rewrite category_names_some_unknown. }
  split; [done|]. intros raw status H1 H2.
  rewrite (admission_unfold raw long_url status H1 H2). by rewrite Hsafe.
Qed.

(** *** The self-reference stage *)

Lemma startswith_find p s : startswith p s = true → find p s = 0.
Proof. intros H. destruct s; cbn [find]; by rewrite H. Qed.

Lemma check_self_reference_prefix long_url :
  startswith request_url long_url = true →
  request_url ≠ long_url →
  ∃ msg,
    check_self_reference request_url long_url
    = Raise (UserWarning SelfReference msg).
Proof.
  intros Hp Hne. unfold check_self_reference, contains.
  rewrite (startswith_find _ _ Hp), bool_decide_eq_false_2 by done.
  by eexists.
Qed.

Lemma check_self_reference_equal :
  check_self_reference request_url request_url = Return ().
Proof.
  unfold check_self_reference. rewrite bool_decide_eq_true_2 by done.
  by rewrite andb_false_r.
Qed.

End PipelineProofs.

Lemma safe_check_json_failure_witness :
  safe_check (sample_get 200 (u "OK") (u "process(<html>)"))
    sample_scheme sample_netloc (λ _, None) decimal (u "key")
    (u "http://example.com/page")
  = Raise (UserWarning JsonFailure json_failure_message).
Proof.
  apply (safe_check_json_failure
           (sample_get 200 (u "OK") (u "process(<html>)"))
           sample_scheme sample_netloc (λ _, None) decimal [] (u "key")
           (u "http://example.com/page")
           (Response 200 (u "OK") (u "process(<html>)")));
    reflexivity.
Defined.

(** C4, as stated, fails: a payload that does not parse is not answered
    with [True]; the check raises and the admission is rejected. *)
Lemma safe_check_json_failure_rejects :
  safe_check (sample_get 200 (u "OK") (u "process(<html>)"))
    sample_scheme sample_netloc (λ _, None) decimal (u "key")
    (u "http://example.com/page")
  ≠ Return true
  ∧ admission (sample_get 200 (u "OK") (u "process(<html>)"))
      sample_scheme sample_netloc (λ _, None) decimal
      (u "http://short.example/") (u "key") (u "http://example.com/page")
    = Raise (UserWarning JsonFailure json_failure_message).
Proof. split; [vm_compute; discriminate|vm_compute; reflexivity]. Qed.

Lemma safe_check_unknown_category_witness :
  safe_check (sample_get 200 (u "OK") (u "process(...)"))
    sample_scheme sample_netloc
    (λ _, Some (JDict [(u "example.com",
                        JDict [(u "target", JStr (u "example.com"));
                               (u "categories",
                                JDict [(u "101", JInt 90);
                                       (u "501", JInt 80)])])]))
    decimal (u "key") (u "http://example.com/page")
  = Return true.
Proof.
  eapply (safe_check_unknown_category _ _ _ _ decimal [] (u "key")).
  - reflexivity.
  - reflexivity.
  - reflexivity.
  - repeat constructor; by eexists.
  - exists (u "501"), 501. split; [|split; [reflexivity|]].
    + apply (bool_decide_unpack _). vm_compute. exact I.
    + apply (bool_decide_unpack _). vm_compute. exact I.
Defined.

(** C5: the code misses it.  A fetch that completes with status 200 and
    the reason phrase "404 handled" is rejected as not found, because the
    test is ['404' in url_status] on the status and the phrase together;
    with the phrase "Internal Server Error" the status 500 is accepted. *)
Theorem check_status_phrase_404 :
  check_status (sample_get 200 (u "404 handled") []) sample_scheme
    sample_netloc (u "http://example.com/page")
  = Raise (UserWarning NotFound
             (u "The domain <b>example.com</b> exists, but this specific URL gives a 404 error."))
  ∧ check_status (sample_get 500 (u "Internal Server Error") []) sample_scheme
      sample_netloc (u "http://example.com/page")
    = Return (u "500: Internal Server Error").
Proof. split; vm_compute; reflexivity. Qed.

(** C7: the code misses it.  With [request.url] equal to
    "http://short.example/", the url
    "http://example.com/?next=http://short.example/abc" does not start with
    it and is rejected all the same, because the test is
    [request.url in long_url]. *)
Theorem check_self_reference_inner_occurrence :
  startswith (u "http://short.example/")
    (u "http://example.com/?next=http://short.example/abc") = false
  ∧ check_self_reference (u "http://short.example/")
      (u "http://example.com/?next=http://short.example/abc")
    = Raise (UserWarning SelfReference
               (u "You cannot simplify a URL that's already been simplified.")).
Proof. split; vm_compute; reflexivity. Qed.

(** *** Searching a string *)

Lemma find_unfold sub s :
  find sub s =
  if startswith sub s then 0
  else match s with
       | [] => -1
       | _ :: s' => let r := find sub s' in if r <? 0 then -1 else r + 1
       end.
Proof. by destruct s. Qed.

Lemma startswith_app p s : startswith p (p ++ s) = true.
Proof.
  induction p as [|a p IH]; [by destruct s|].
  cbn [app startswith]. by rewrite bool_decide_eq_true_2, IH.
Qed.

Lemma startswith_spec p s : startswith p s = true → ∃ q, s = p ++ q.
Proof.
  revert s. induction p as [|a p IH]; intros s; [by exists s|].
  destruct s as [|b s]; cbn [startswith]; [done|].
  intros [->%bool_decide_eq_true [q ->]%IH]%andb_prop. by exists q.
Qed.

(** [find] returns the place of the first occurrence. *)
Lemma find_first sub p q :
  (∀ p' q', p ++ sub ++ q = p' ++ sub ++ q' → (length p ≤ length p')%nat) →
  find sub (p ++ sub ++ q) = Z.of_nat (length p).
Proof.
  induction p as [|a p IH]; intros Hfirst; rewrite find_unfold.
  - cbn [app]. by rewrite startswith_app.
  - destruct (startswith sub ((a :: p) ++ sub ++ q)) eqn:E.
    + apply startswith_spec in E as [q' E].
      specialize (Hfirst [] q' E). cbn [length] in Hfirst. lia.
    + cbn [app]. cbv zeta. rewrite IH.
      * destruct (Z.ltb_spec (Z.of_nat (length p)) 0); cbn [length]; lia.
      * intros p' q' E'. specialize (Hfirst (a :: p') q').
        cbn [app length] in Hfirst. rewrite E' in Hfirst.
        specialize (Hfirst eq_refl). lia.
Qed.

Lemma find_spec sub s :
  (find sub s = -1 ∧ ∀ p q, s ≠ p ++ sub ++ q)
  ∨ (∃ p q, s = p ++ sub ++ q ∧ find sub s = Z.of_nat (length p)
            ∧ ∀ p' q', s = p' ++ sub ++ q' → (length p ≤ length p')%nat).
Proof.
  induction s as [|a s IH]; rewrite find_unfold.
  - destruct (startswith sub []) eqn:E.
    + right. apply startswith_spec in E as [q E]. exists [], q.
      repeat split; [done|]. intros; cbn [length]; lia.
    + left. split; [done|]. intros p q Hs.
      symmetry in Hs. apply app_eq_nil in Hs as [-> [-> ->]%app_eq_nil].
      done.
  - destruct (startswith sub (a :: s)) eqn:E.
    + right. apply startswith_spec in E as [q E]. exists [], q.
      repeat split; [done|]. intros; cbn [length]; lia.
    + assert (∀ q, a :: s ≠ sub ++ q) as Hnot.
      { intros q Hq. by rewrite Hq, startswith_app in E. }
      cbv zeta.
      destruct IH as [[-> Hno]|(p & q & -> & -> & Hfirst)].
      * left. split; [done|]. intros [|a' p] q Hs; [by eapply Hnot|].
        injection Hs as -> Hs. by eapply Hno.
      * right. exists (a :: p), q. repeat split.
        -- destruct (Z.ltb_spec (Z.of_nat (length p)) 0); cbn [length]; lia.
        -- intros [|a' p'] q' Hs; [by eapply Hnot in Hs|].
           injection Hs as -> Hs. apply Hfirst in Hs. cbn [length]. lia.
Qed.

Lemma slice_to_app p r : slice_to (p ++ r) (Z.of_nat (length p)) = p.
Proof.
  unfold slice_to, slice_bound. rewrite length_app.
  destruct (Z.ltb_spec (Z.of_nat (length p)) 0); [lia|].
  apply take_app_length'. lia.
Qed.

(** *** The schema stage *)

Lemma colon_punctuation : 58%N ∈ punctuation.
Proof. apply (bool_decide_unpack _). vm_compute. exact I. Qed.

Lemma scan_schema_token url tok rest :
  Forall (λ c, c ∉ punctuation) tok →
  scan_schema url (tok ++ 58%N :: rest) = slice_to url (find (u ":") url).
Proof.
  induction 1 as [|c tok Hc _ IH]; cbn [app scan_schema].
  - rewrite decide_True by apply colon_punctuation. by rewrite decide_True.
  - by rewrite decide_False.
Qed.

Lemma scan_schema_spec url rest :
  scan_schema url rest = []
  ∨ ∃ tok rest', rest = tok ++ 58%N :: rest'
                 ∧ Forall (λ c, c ∉ punctuation) tok
                 ∧ scan_schema url rest = slice_to url (find (u ":") url).
Proof.
  induction rest as [|c rest IH]; [by left|]. cbn [scan_schema].
  destruct (decide (c ∈ punctuation)).
  - destruct (decide (c = 58%N)) as [->|]; [|by left].
    right. exists [], rest. repeat split. constructor.
  - destruct IH as [?|(tok & rest' & -> & Htok & E)]; [by left|].
    right. exists (c :: tok), rest'. repeat split; [by constructor|done].
Qed.

(** The colon that follows a prefix without punctuation is the first one. *)
Lemma find_colon tok rest :
  Forall (λ c, c ∉ punctuation) tok →
  find (u ":") (tok ++ 58%N :: rest) = Z.of_nat (length tok).
Proof.
  intros Htok. apply (find_first [58%N] tok rest).
  intros p' q' E.
  destruct (decide (length p' < length tok)%nat) as [Hlt|]; [|lia].
  exfalso.
  assert ((tok ++ [58%N] ++ rest) !! length p' = Some 58%N) as Hl.
  { rewrite E. by apply list_lookup_middle. }
  rewrite lookup_app_l in Hl by done.
  apply list_elem_of_lookup_2 in Hl.
  rewrite Forall_forall in Htok. exact (Htok _ Hl colon_punctuation).
Qed.

(** The schema that the code detects is the scheme token of the
    specification. *)
Lemma schema_of_complete url tok : scheme_token url tok → schema_of url = tok.
Proof.
  unfold schema_of, contains. intros [tok' rest -> Hfirst|tok' rest Hno -> Htok].
  - rewrite (find_first _ _ _ Hfirst).
    rewrite (proj2 (Z.leb_le _ _)) by lia. apply slice_to_app.
  - destruct (find_spec (u "://") (tok' ++ u ":" ++ rest))
      as [[-> _]|(p & q & E & _)]; [|by apply Hno in E].
    cbn [Z.leb Z.compare]. change (u ":" ++ rest) with (58%N :: rest).
    rewrite scan_schema_token by done. rewrite (find_colon tok' rest Htok).
    apply slice_to_app.
Qed.

Lemma schema_of_sound url : schema_of url ≠ [] → scheme_token url (schema_of url).
Proof.
  unfold schema_of, contains.
  destruct (find_spec (u "://") url)
    as [[-> Hno]|(p & q & E & -> & Hfirst)].
  - cbn [Z.leb Z.compare].
    destruct (scan_schema_spec url url) as [->|(tok & rest & E & Htok & ->)];
      [done|].
    intros _.
    assert (slice_to url (find (u ":") url) = tok) as ->.
    { rewrite E, (find_colon tok rest Htok). apply slice_to_app. }
    by apply (token_prefix url tok rest).
  - rewrite (proj2 (Z.leb_le _ _)) by lia. intros _.
    assert (slice_to url (Z.of_nat (length p)) = p) as ->.
    { rewrite E. apply slice_to_app. }
    by apply (token_explicit url p q).
Qed.

(** C6: a url whose scheme token (the text before the first [://], or,
    without [://], the prefix before a colon that no other punctuation
    precedes) is not empty and is not exactly [http] or [https] is rejected
    as an illegal schema; with the token [http] or [https] the url is
    returned unaltered; a url without a token, or with an empty one, gets
    [http://] in front.  The comparison is case-sensitive: [HTTP] is
    rejected.  [ftp://host/path] is rejected and [host/path] becomes
    [http://host/path]. *)
Theorem validate_schema_spec :
  (∀ url tok,
     scheme_token url tok → tok ≠ [] → tok ≠ u "http" → tok ≠ u "https" →
     validate_schema url
     = Raise (UserWarning IllegalSchema (illegal_schema_message tok)))
  ∧ (∀ url tok,
       scheme_token url tok → tok = u "http" ∨ tok = u "https" →
       validate_schema url = Return url)
  ∧ (∀ url,
       (∀ tok, scheme_token url tok → tok = []) →
       validate_schema url = Return (u "http://" ++ url))
  ∧ validate_schema (u "ftp://host/path")
    = Raise (UserWarning IllegalSchema (illegal_schema_message (u "ftp")))
  ∧ validate_schema (u "host/path") = Return (u "http://host/path")
  ∧ validate_schema (u "HTTP://host/path")
    = Raise (UserWarning IllegalSchema (illegal_schema_message (u "HTTP"))).
Proof.
  split; [|split; [|split]].
  - intros url tok Htok Hne Hhttp Hhttps. unfold validate_schema.
    rewrite (schema_of_complete url tok Htok).
    rewrite decide_False.
    + by rewrite decide_False.
    + intros [->|[->|[]%elem_of_nil]%elem_of_cons]%elem_of_cons; done.
  - intros url tok Htok Hor. unfold validate_schema.
    rewrite (schema_of_complete url tok Htok).
    rewrite decide_True; [done|].
    destruct Hor as [-> | ->]; [left|right; left].
  - intros url Hnone. unfold validate_schema.
    assert (schema_of url = []) as ->.
    { destruct (decide (schema_of url = [])) as [|Hs]; [done|].
      by apply schema_of_sound, Hnone in Hs. }
    rewrite decide_False; [by rewrite decide_True|].
    intros [E|[E|[]%elem_of_nil]%elem_of_cons]%elem_of_cons; discriminate E.
  - repeat split; vm_compute; reflexivity.
Qed.

Lemma validate_schema_spec_witness :
  validate_schema (u "data:text/html,hello")
  = Raise (UserWarning IllegalSchema (illegal_schema_message (u "data"))).
Proof.
  apply (proj1 validate_schema_spec (u "data:text/html,hello") (u "data")).
  - apply (schema_of_sound (u "data:text/html,hello")).
    vm_compute. discriminate.
  - vm_compute. discriminate.
  - vm_compute. discriminate.
  - vm_compute. discriminate.
Defined.

End AdmissionProofs.

(** ** More on the admission pipeline *)

Module AdmissionExtra.
Import PyStr Admission AdmissionProofs.

(** *** Normalization *)

Lemma remove_non_ascii_id s :
  Forall (λ i, (i < 128)%N) s → remove_non_ascii s = s.
Proof.
  unfold remove_non_ascii, pystr. induction 1 as [|c s Hc _ IH]; [done|].
  rewrite filter_cons_True by done. by rewrite IH.
Qed.

Lemma remove_non_ascii_Forall s :
  Forall (λ i, (i < 128)%N) (remove_non_ascii s).
Proof.
  apply Forall_forall. intros c Hc.
  by apply (list_elem_of_filter (λ i, (i < 128)%N)) in Hc as [? _].
Qed.

(** X11: [remove_non_ascii] keeps a subsequence of its argument in which
    every character is below 128; it leaves a string unchanged exactly when
    every character of the string is below 128, so that a second call
    changes nothing. *)
Theorem remove_non_ascii_spec s :
  Forall (λ i, (i < 128)%N) (remove_non_ascii s)
  ∧ remove_non_ascii s `sublist_of` s
  ∧ (remove_non_ascii s = s ↔ Forall (λ i, (i < 128)%N) s)
  ∧ remove_non_ascii (remove_non_ascii s) = remove_non_ascii s.
Proof.
  split; [apply remove_non_ascii_Forall|].
  split; [apply sublist_filter|]. split.
  - split; [|apply remove_non_ascii_id].
    intros E. rewrite <- E. apply remove_non_ascii_Forall.
  - apply remove_non_ascii_id, remove_non_ascii_Forall.
Qed.

Lemma remove_non_ascii_spec_witness :
  remove_non_ascii (u "host/path") = u "host/path".
Proof.
  apply (proj2 (proj1 (proj2 (proj2
           (remove_non_ascii_spec (u "host/path")))))).
  repeat (apply List.Forall_cons || apply List.Forall_nil); reflexivity.
Defined.

Lemma lstrip_snoc l c :
  isspace c = false → lstrip (l ++ [c]) = lstrip l ++ [c].
Proof.
  intros Hc. induction l as [|a l IH]; cbn [app lstrip].
  - by rewrite Hc.
  - by destruct (isspace a).
Qed.

Lemma rstrip_cons c t : isspace c = false → rstrip (c :: t) = c :: rstrip t.
Proof.
  intros Hc. unfold rstrip.
  by rewrite reverse_cons, lstrip_snoc, reverse_snoc.
Qed.

Lemma strip_Forall (P : N → Prop) s : Forall P s → Forall P (strip s).
Proof.
  intros Hs. destruct (strip_spec s) as (lead & trail & E & _).
  rewrite E in Hs. by apply Forall_app in Hs as [_ [? _]%Forall_app].
Qed.

(** X12: the trimming comes before the removal and is not done again: a
    second normalization only trims the result of the first; and after a
    first character that is not ASCII and not whitespace, the whitespace
    that follows is kept at the front of the normalized url. *)
Theorem normalize_twice :
  (∀ raw, normalize (normalize raw) = strip (normalize raw))
  ∧ (∀ c t,
       (128 <= c)%N → isspace c = false →
       normalize (c :: t) = remove_non_ascii (rstrip t)).
Proof.
  split.
  - intros raw. unfold normalize at 1.
    apply remove_non_ascii_id, strip_Forall, remove_non_ascii_Forall.
  - intros c t Hc Hs. unfold normalize, strip. cbn [lstrip]. rewrite Hs.
    rewrite rstrip_cons by done. unfold remove_non_ascii, pystr.
    apply filter_cons_False. lia.
Qed.

Lemma normalize_twice_witness :
  normalize (233%N :: u " example.com ") = u " example.com".
Proof.
  apply (proj2 normalize_twice 233%N (u " example.com ")); [|reflexivity].
  by vm_compute.
Defined.

(** *** The schema stage *)

Lemma schema_of_prepended url : schema_of (u "http://" ++ url) = u "http".
Proof.
  unfold schema_of, contains.
  assert (find (u "://") (u "http://" ++ url) = 4) as -> by (by destruct url).
  cbn [Z.leb Z.compare].
  change (u "http://" ++ url) with (u "http" ++ (u "://" ++ url)).
  apply (slice_to_app (u "http")).
Qed.

Lemma validate_schema_fixed url :
  schema_of url ∈ [u "http"; u "https"] → validate_schema url = Return url.
Proof. intros H. unfold validate_schema. by rewrite decide_True. Qed.

Lemma validate_schema_return url url' :
  validate_schema url = Return url' →
  (url' = url ∨ url' = u "http://" ++ url)
  ∧ schema_of url' ∈ [u "http"; u "https"].
Proof.
  unfold validate_schema.
  destruct (decide (schema_of url ∈ [u "http"; u "https"])) as [Hin|_].
  - intros [= <-]. by split; [left|].
  - destruct (decide (schema_of url = [])); [|done].
    intros H. assert (url' = u "http://" ++ url) as -> by congruence.
    split; [by right|]. rewrite schema_of_prepended. left.
Qed.

(** X13: a url that [validate_schema] returns has the schema [http] or
    [https], is the argument itself or the argument with [http://] in
    front, and is returned unaltered when it is validated again. *)
Theorem validate_schema_idempotent url url' :
  validate_schema url = Return url' →
  (url' = url ∨ url' = u "http://" ++ url)
  ∧ schema_of url' ∈ [u "http"; u "https"]
  ∧ validate_schema url' = Return url'.
Proof.
  intros H. destruct (validate_schema_return url url' H) as [Hor Hin].
  split; [done|]. split; [done|]. by apply validate_schema_fixed.
Qed.

Lemma validate_schema_idempotent_witness :
  validate_schema (u "http://host/path") = Return (u "http://host/path").
Proof.
  apply (validate_schema_idempotent (u "host/path") (u "http://host/path")).
  reflexivity.
Defined.

(** X14: [validate_schema] raises nothing but the illegal-schema rejection,
    and raises it only for a url with a scheme token that is not empty and
    is neither [http] nor [https]; the message names that token. *)
Theorem validate_schema_rejects url e :
  validate_schema url = Raise e →
  e = UserWarning IllegalSchema (illegal_schema_message (schema_of url))
  ∧ scheme_token url (schema_of url)
  ∧ schema_of url ≠ [] ∧ schema_of url ≠ u "http"
  ∧ schema_of url ≠ u "https".
Proof.
  unfold validate_schema.
  destruct (decide (schema_of url ∈ [u "http"; u "https"])) as [|Hout]; [done|].
  destruct (decide (schema_of url = [])) as [|Hne]; [done|].
  intros [= <-]. split; [done|]. split; [by apply schema_of_sound|].
  split; [done|]. split; intros E; apply Hout; rewrite E.
  - left.
  - right. left.
Qed.

Lemma validate_schema_rejects_witness :
  scheme_token (u "example.com/?next=http://host/")
    (schema_of (u "example.com/?next=http://host/")).
Proof.
  apply (validate_schema_rejects (u "example.com/?next=http://host/")
           (UserWarning IllegalSchema
              (illegal_schema_message (u "example.com/?next=http")))).
  reflexivity.
Defined.

(** *** Occurrences of a string in another *)

Lemma contains_iff sub s :
  contains sub s = true ↔ ∃ p q, s = p ++ sub ++ q.
Proof.
  unfold contains.
  destruct (find_spec sub s) as [[-> Hno]|(p & q & E & -> & _)].
  - split; [done|]. intros (p & q & E). by apply Hno in E.
  - split; [by exists p, q|]. intros _. apply Z.leb_le. lia.
Qed.

Lemma contains_app_l sub s t : contains sub s = true → contains sub (s ++ t) = true.
Proof.
  rewrite !contains_iff. intros (p & q & ->). exists p, (q ++ t).
  by rewrite <- !app_assoc.
Qed.

Lemma contains_app_r sub s t : contains sub t = true → contains sub (s ++ t) = true.
Proof.
  rewrite !contains_iff. intros (p & q & ->). exists (s ++ p), q.
  by rewrite <- !app_assoc.
Qed.

(** An occurrence of ["404"] in the status text lies in the number or in
    the reason phrase: it cannot run over the [": "] between them. *)
Lemma contains_404_status S R :
  contains (u "404") (S ++ u ": " ++ R)
  = contains (u "404") S || contains (u "404") R.
Proof.
  apply eq_true_iff_eq. rewrite orb_true_iff, !contains_iff.
  change (u "404") with [52; 48; 52]%N. change (u ": ") with [58; 32]%N.
  split.
  - intros (p & q & E). apply app_eq_inv in E as [(k & -> & E)|(k & -> & E)].
    + destruct k as [|a [|b [|c k]]]; try discriminate E.
      injection E as <- <- <- ->. left. by exists p, k.
    + destruct k as [|a [|b k]]; try discriminate E.
      injection E as <- <- ->. right. by exists k, q.
  - intros [H|H]; apply contains_iff.
    + by apply contains_app_l, contains_iff.
    + by apply contains_app_r, contains_app_r, contains_iff.
Qed.

Lemma status_text_404 n :
  100 <= n <= 999 →
  contains (u "404") (str_of_int n) = bool_decide (n = 404).
Proof.
  intros Hn.
  assert (forallb (λ k, Bool.eqb (contains (u "404") (str_of_int (Z.of_nat k)))
                          (bool_decide (Z.of_nat k = 404)))
            (seq 100 900) = true) as Hall by (vm_compute; reflexivity).
  rewrite forallb_forall in Hall.
  specialize (Hall (Z.to_nat n)). rewrite Z2Nat.id in Hall by lia.
  apply Bool.eqb_prop, Hall. apply in_seq. lia.
Qed.

Section PipelineExtra.

Variable requests_get : pystr → option response.
Variable urlparse_scheme urlparse_netloc : pystr → pystr.
Variable json_loads : pystr → option json.
Variable py_int : pystr → option Z.
Variable request_url : pystr.
Variable WOT_API_KEY : pystr.

#[local] Abbreviation get_domain :=
  (get_domain urlparse_scheme urlparse_netloc).
#[local] Abbreviation check_status :=
  (check_status requests_get urlparse_scheme urlparse_netloc).
#[local] Abbreviation safe_check :=
  (safe_check requests_get urlparse_scheme urlparse_netloc json_loads py_int
     WOT_API_KEY).
#[local] Abbreviation admission :=
  (admission requests_get urlparse_scheme urlparse_netloc json_loads py_int
     request_url WOT_API_KEY).

(** X16: the self-reference stage rejects a url exactly when [request.url]
    occurs somewhere in it and the url is not [request.url] itself;
    otherwise the stage passes. *)
Theorem check_self_reference_outcome long_url :
  ((∃ p q, long_url = p ++ request_url ++ q) ∧ long_url ≠ request_url →
   check_self_reference request_url long_url
   = Raise (UserWarning SelfReference
              (u "You cannot simplify a URL that's already been simplified.")))
  ∧ (¬ ((∃ p q, long_url = p ++ request_url ++ q) ∧ long_url ≠ request_url) →
     check_self_reference request_url long_url = Return ()).
Proof.
  unfold check_self_reference. split.
  - intros [Hin Hne]. apply contains_iff in Hin. rewrite Hin.
    by rewrite bool_decide_eq_false_2.
  - intros Hnot. destruct (contains request_url long_url) eqn:Hin; [|done].
    apply contains_iff in Hin.
    destruct (decide (request_url = long_url)) as [->|Hne].
    + by rewrite bool_decide_eq_true_2.
    + exfalso. apply Hnot. by split.
Qed.

End PipelineExtra.

Lemma check_self_reference_outcome_witness :
  check_self_reference (u "http://short.example/")
    (u "http://short.example.evil.org/") = Return ().
Proof.
  apply (proj2 (check_self_reference_outcome (u "http://short.example/")
                  (u "http://short.example.evil.org/"))).
  intros [Hin _]. apply contains_iff in Hin. by vm_compute in Hin.
Defined.

Section ReputationExtra.

Variable requests_get : pystr → option response.
Variable urlparse_scheme urlparse_netloc : pystr → pystr.
Variable json_loads : pystr → option json.
Variable py_int : pystr → option Z.
Variable request_url : pystr.
Variable WOT_API_KEY : pystr.

#[local] Abbreviation get_domain :=
  (get_domain urlparse_scheme urlparse_netloc).
#[local] Abbreviation check_status :=
  (check_status requests_get urlparse_scheme urlparse_netloc).
#[local] Abbreviation safe_check :=
  (safe_check requests_get urlparse_scheme urlparse_netloc json_loads py_int
     WOT_API_KEY).
#[local] Abbreviation admission :=
  (admission requests_get urlparse_scheme urlparse_netloc json_loads py_int
     request_url WOT_API_KEY).

#[local] Abbreviation recognised := (recognised py_int).

Lemma category_names_recognised keys :
  Forall recognised keys →
  ∃ names,
    category_names py_int keys = Return names
    ∧ Forall2 (λ i name, ∃ code, py_int i = Some code
                 ∧ (code, name) ∈ unwanted_WOT_categories) keys names.
Proof.
  induction 1 as [|i keys (code & Hi & Hcode) _ (names & E & Hnames)].
  - exists []. split; [done|constructor].
  - assert (∃ name, category_name unwanted_WOT_categories code = Return name
                    ∧ (code, name) ∈ unwanted_WOT_categories)
      as (name & Hname & Hin).
    { clear -Hcode. induction unwanted_WOT_categories as [|[c n] table IH];
        cbn [category_name fmap list_fmap fst] in *.
      - by apply elem_of_nil in Hcode.
      - destruct (decide (c = code)) as [->|Hne].
        + exists n. split; [done|left].
        + apply elem_of_cons in Hcode as [?|Hcode]; [congruence|].
          destruct (IH Hcode) as (name & ? & ?). exists name.
          split; [done|by right]. }
    exists (name :: names). split.
    + cbn [category_names]. rewrite Hi, Hname. cbn [mbind result_bind].
      by rewrite E.
    + constructor; [by exists code|done].
Qed.

Lemma wot_categories_entry host entry others cats :
  dict_get entry (u "categories") = Some (JDict cats) →
  wot_categories py_int (JDict ((host, JDict entry) :: others))
  = category_names py_int cats.*1.
Proof.
  intros Hcats. unfold wot_categories, py_next_iter, py_getitem.
  cbn [mbind result_bind dict_get]. rewrite decide_True by done.
  cbn [mbind result_bind]. by rewrite Hcats.
Qed.

(** X17: when every key of the [categories] object of the first entry is a
    recognised category code, [safe_check] rejects the url as unsafe, with
    the names of the categories in the order of the keys; an empty
    [categories] object is rejected as well, with no name in the message. *)
Theorem safe_check_recognised long_url request host entry others cats :
  requests_get (wot_request WOT_API_KEY (get_domain long_url false))
    = Some request →
  json_loads (slice (text request) 8 (-1))
    = Some (JDict ((host, JDict entry) :: others)) →
  dict_get entry (u "categories") = Some (JDict cats) →
  Forall recognised cats.*1 →
  (∃ names,
     safe_check long_url = Raise (UserWarning Unsafe (unsafe_message names))
     ∧ Forall2 (λ i name, ∃ code, py_int i = Some code
                  ∧ (code, name) ∈ unwanted_WOT_categories) cats.*1 names)
  ∧ (cats = [] →
     safe_check long_url
     = Raise (UserWarning Unsafe
                (u "We don't trust this page. This page may contain ."))).
Proof.
  intros Hget Hjson Hcats Hall.
  destruct (category_names_recognised _ Hall) as (names & E & Hnames).
  assert (safe_check long_url
          = Raise (UserWarning Unsafe (unsafe_message names))) as Hsafe.
  { unfold Admission.safe_check. rewrite Hget, Hjson.
    by rewrite (wot_categories_entry _ _ _ _ Hcats), E. }
  split; [by exists names|].
  intros ->. rewrite Hsafe. inversion Hnames. done.
Qed.

(** X18: an answer without data is trusted: when the answer is an empty
    object, or its first entry has no [categories], [safe_check] returns
    [True]. *)
Theorem safe_check_no_data long_url request :
  requests_get (wot_request WOT_API_KEY (get_domain long_url false))
    = Some request →
  json_loads (slice (text request) 8 (-1)) = Some (JDict [])
  ∨ (∃ host entry others,
       json_loads (slice (text request) 8 (-1))
         = Some (JDict ((host, JDict entry) :: others))
       ∧ dict_get entry (u "categories") = None) →
  safe_check long_url = Return true.
Proof.
  intros Hget [Hjson|(host & entry & others & Hjson & Hcats)];
    unfold Admission.safe_check; rewrite Hget, Hjson; [done|].
  unfold wot_categories, py_next_iter, py_getitem.
  cbn [mbind result_bind dict_get]. rewrite decide_True by done.
  cbn [mbind result_bind]. by rewrite Hcats.
Qed.

(** X19: two failures of the reputation stage are not rejections but
    exceptions that leave [main_page]: a request to the reputation service
    that fails, and a category key that is not an integer and is met before
    any unrecognised code.  For a url that came this far the admission
    raises [RequestException] and [ValueError]. *)
Theorem safe_check_escapes raw long_url status :
  validate_schema (normalize raw) = Return long_url →
  check_status long_url = Return status →
  (requests_get (wot_request WOT_API_KEY (get_domain long_url false)) = None →
   admission raw = Raise RequestException)
  ∧ (∀ request host entry others cats known k rest,
       requests_get (wot_request WOT_API_KEY (get_domain long_url false))
         = Some request →
       json_loads (slice (text request) 8 (-1))
         = Some (JDict ((host, JDict entry) :: others)) →
       dict_get entry (u "categories") = Some (JDict cats) →
       cats.*1 = known ++ k :: rest →
       Forall recognised known →
       py_int k = None →
       admission raw = Raise ValueError).
Proof.
  intros H1 H2. split.
  - intros Hget. rewrite (admission_unfold _ _ _ _ _ _ _ raw long_url status H1 H2).
    unfold Admission.safe_check. by rewrite Hget.
  - intros request host entry others cats known k rest Hget Hjson Hcats Hk Hall Hint.
    rewrite (admission_unfold _ _ _ _ _ _ _ raw long_url status H1 H2).
    unfold Admission.safe_check. rewrite Hget, Hjson.
    rewrite (wot_categories_entry _ _ _ _ Hcats), Hk.
    assert (category_names py_int (known ++ k :: rest) = Raise ValueError) as ->;
      [|done].
    clear -Hall Hint.
    induction Hall as [|i known (code & Hi & Hcode) _ IH];
      cbn [app category_names].
    + by rewrite Hint.
    + rewrite Hi. destruct (category_name_known _ _ Hcode) as [name ->].
      cbn [mbind result_bind]. by rewrite IH.
Qed.

(** X20: the stages run in order and the first one that fails decides:
    what [validate_schema] raises is raised whatever the network answers; a
    fetch that fails is rejected as not reachable; and what the status test
    raises is raised before the reputation service is asked. *)
Theorem admission_first_failure raw :
  (∀ e, validate_schema (normalize raw) = Raise e → admission raw = Raise e)
  ∧ (∀ long_url,
       validate_schema (normalize raw) = Return long_url →
       requests_get long_url = None →
       admission raw
       = Raise (UserWarning NotReachable
                  (u "Could not resolve <b>" ++ long_url
                     ++ u "</b>. Make sure the URL is valid.")))
  ∧ (∀ long_url e,
       validate_schema (normalize raw) = Return long_url →
       check_status long_url = Raise e →
       admission raw = Raise e).
Proof.
  unfold Admission.admission. repeat split.
  - by intros e ->.
  - intros long_url -> Hget. cbn [mbind result_bind].
    unfold Admission.check_status, validate_url. by rewrite Hget.
  - intros long_url e -> Hst. cbn [mbind result_bind]. by rewrite Hst.
Qed.

Lemma safe_check_returns_true long_url b :
  safe_check long_url = Return b → b = true.
Proof.
  unfold Admission.safe_check.
  destruct (requests_get _) as [request|]; [|done].
  destruct (json_loads _) as [request_json|]; [|done].
  destruct (wot_categories py_int request_json) as [?|[]]; congruence.
Qed.

(** X21: what an admitted url is known to be: [url_is_safe] is [True]; the
    url is the normalized input or the normalized input with [http://] in
    front; all its characters are below 128; its schema is [http] or
    [https]; its fetch completed and ["404"] does not occur in the status
    text; and [request.url] does not occur in it, unless it is
    [request.url] itself. *)
Theorem admission_accepted raw long_url url_is_safe :
  admission raw = Return (long_url, url_is_safe) →
  url_is_safe = true
  ∧ (long_url = normalize raw ∨ long_url = u "http://" ++ normalize raw)
  ∧ Forall (λ i, (i < 128)%N) long_url
  ∧ schema_of long_url ∈ [u "http"; u "https"]
  ∧ (∃ request,
       requests_get long_url = Some request
       ∧ contains (u "404")
           (str_of_int (status_code request) ++ u ": " ++ reason request)
         = false)
  ∧ (contains request_url long_url = false ∨ long_url = request_url).
Proof.
  unfold Admission.admission.
  destruct (validate_schema (normalize raw)) as [url|] eqn:Hschema; [|done].
  cbn [mbind result_bind].
  destruct (check_status url) as [status|] eqn:Hstatus; [|done].
  cbn [mbind result_bind].
  destruct (safe_check url) as [b|] eqn:Hsafe; [|done].
  cbn [mbind result_bind].
  destruct (check_self_reference request_url url) as [[]|] eqn:Hself; [|done].
  cbn [mbind result_bind]. intros [= <- <-].
  destruct (validate_schema_return _ _ Hschema) as [Hor Hin].
  split; [by eapply safe_check_returns_true|]. split; [done|]. split.
  { destruct Hor as [->| ->]; [apply remove_non_ascii_Forall|].
    apply Forall_app. split; [|apply remove_non_ascii_Forall].
    apply Forall_forall. intros c Hc. apply (bool_decide_unpack _).
    revert c Hc. apply Forall_forall.
    repeat (apply List.Forall_cons || apply List.Forall_nil); reflexivity. }
  split; [done|]. split.
  - unfold Admission.check_status, validate_url in Hstatus.
    destruct (requests_get url) as [request|]; [|done].
    exists request. split; [done|]. cbn [mbind result_bind] in Hstatus.
    by destruct (contains (u "404") _).
  - unfold check_self_reference in Hself.
    destruct (contains request_url url); [|by left].
    destruct (decide (request_url = url)) as [->|Hne]; [by right|].
    by rewrite bool_decide_eq_false_2 in Hself.
Qed.

End ReputationExtra.

Lemma safe_check_recognised_witness :
  ∃ names,
    safe_check (sample_get 200 (u "OK") (u "process(...)"))
      sample_scheme sample_netloc
      (λ _, Some (JDict [(u "example.com",
                          JDict [(u "categories",
                                  JDict [(u "101", JInt 90);
                                         (u "103", JInt 80)])])]))
      decimal (u "key") (u "http://example.com/page")
    = Raise (UserWarning Unsafe (unsafe_message names)).
Proof.
  edestruct (safe_check_recognised
               (sample_get 200 (u "OK") (u "process(...)"))
               sample_scheme sample_netloc
               (λ _, Some (JDict [(u "example.com",
                                   JDict [(u "categories",
                                           JDict [(u "101", JInt 90);
                                                  (u "103", JInt 80)])])]))
               decimal (u "key") (u "http://example.com/page"))
    as [(names & E & _) _].
  - reflexivity.
  - reflexivity.
  - reflexivity.
  - repeat (apply List.Forall_cons || apply List.Forall_nil).
    + exists 101. split; [reflexivity|].
      apply (bool_decide_unpack _). vm_compute. exact I.
    + exists 103. split; [reflexivity|].
      apply (bool_decide_unpack _). vm_compute. exact I.
  - exists names. exact E.
Defined.

Lemma safe_check_no_data_witness :
  safe_check (sample_get 200 (u "OK") (u "process({})"))
    sample_scheme sample_netloc (λ _, Some (JDict [])) decimal (u "key")
    (u "http://example.com/page")
  = Return true.
Proof.
  apply (safe_check_no_data
           (sample_get 200 (u "OK") (u "process({})"))
           sample_scheme sample_netloc (λ _, Some (JDict [])) decimal (u "key")
           (u "http://example.com/page")
           (Response 200 (u "OK") (u "process({})"))); [reflexivity|].
  left. reflexivity.
Defined.

Lemma safe_check_escapes_witness :
  admission (sample_get_offline 200 (u "OK")) sample_scheme sample_netloc
    (λ _, None) decimal (u "http://short.example/") (u "key")
    (u " example.com/page ")
  = Raise RequestException.
Proof.
  apply (proj1 (safe_check_escapes
                  (sample_get_offline 200 (u "OK")) sample_scheme
                  sample_netloc (λ _, None) decimal (u "http://short.example/")
                  (u "key") (u " example.com/page ")
                  (u "http://example.com/page") (u "200: OK")
                  eq_refl eq_refl)).
  reflexivity.
Defined.

Lemma admission_first_failure_witness :
  admission (λ _, None) sample_scheme sample_netloc (λ _, None) decimal
    (u "http://short.example/") (u "key") (u "ftp://host/path")
  = Raise (UserWarning IllegalSchema (illegal_schema_message (u "ftp"))).
Proof.
  apply (proj1 (admission_first_failure (λ _, None) sample_scheme
                  sample_netloc (λ _, None) decimal
                  (u "http://short.example/") (u "key")
                  (u "ftp://host/path"))).
  reflexivity.
Defined.

Lemma admission_accepted_witness :
  schema_of (u "http://example.com/page") ∈ [u "http"; u "https"].
Proof.
  apply (admission_accepted
           (sample_get 200 (u "OK") (u "process({})")) sample_scheme
           sample_netloc (λ _, Some (JDict [])) decimal
           (u "http://short.example/") (u "key")
           (u " example.com/page ") (u "http://example.com/page") true).
  reflexivity.
Defined.

(** *** The stages that parse the url *)

Section UrlparseExtra.

Variable urlparse : pystr → option Urlparse.parse_result.
Variable requests_get : pystr → option response.
Variable request_url : pystr.

(** X15: for a fetch that completes with a status between 100 and 999, the
    status test of [main_page] lets the url pass, with the status text,
    exactly when the status is not 404 and the reason phrase does not
    contain ["404"]; otherwise it raises: the not-found rejection with the
    host of the url when [urlparse] parses the url, and the [ValueError] of
    [urlparse] when it does not. *)
Theorem check_status_outcome long_url request :
  requests_get long_url = Some request →
  100 <= status_code request <= 999 →
  Urlparse.check_status urlparse requests_get long_url =
  if bool_decide (status_code request = 404)
     || contains (u "404") (reason request)
  then match urlparse long_url with
       | Some parsed =>
           Raise (UserWarning NotFound
                    (u "The domain <b>" ++ Urlparse.netloc parsed
                       ++ u "</b> exists, but this specific URL gives a 404 error."))
       | None => Raise ValueError
       end
  else Return (str_of_int (status_code request) ++ u ": " ++ reason request).
Proof.
  intros Hget Hstatus. unfold Urlparse.check_status, validate_url.
  rewrite Hget. cbn [mbind result_bind].
  rewrite contains_404_status, status_text_404 by done.
  destruct (bool_decide (status_code request = 404)
            || contains (u "404") (reason request)); [|done].
  unfold Urlparse.get_domain. by destruct (urlparse long_url).
Qed.

#[local] Abbreviation reverse_validate :=
  (Urlparse.reverse_validate urlparse request_url).

(** X22: the validation of [reverse_page].  The only exception that leaves
    it is the [ValueError] of [urlparse], and it leaves exactly when the
    url that [validate_schema] returned, or [request.url], is not parsed.
    A url that is accepted for the lookup is the trimmed input, or that
    with [http://] in front, has the schema [http] or [https], has the host
    of [request.url] somewhere in its host, and gives a [url_string] that
    is the path without its first character and is not empty. *)
Theorem reverse_validate_spec short_url :
  (∀ e, reverse_validate short_url = Raise e →
        e = ValueError
        ∧ ∃ url, validate_schema (strip short_url) = Return url
                 ∧ (urlparse url = None ∨ urlparse request_url = None))
  ∧ (∀ url, validate_schema (strip short_url) = Return url →
            urlparse url = None ∨ urlparse request_url = None →
            reverse_validate short_url = Raise ValueError)
  ∧ ∀ url url_string,
      reverse_validate short_url = Return (ReverseLookup url url_string) →
      (url = strip short_url ∨ url = u "http://" ++ strip short_url)
      ∧ schema_of url ∈ [u "http"; u "https"]
      ∧ ∃ parsed own,
          urlparse url = Some parsed ∧ urlparse request_url = Some own
          ∧ contains (Urlparse.netloc own) (Urlparse.netloc parsed) = true
          ∧ url_string = drop 1 (Urlparse.path parsed)
          ∧ url_string ≠ [].
Proof.
  unfold Urlparse.reverse_validate, Urlparse.validate_short_url,
    Urlparse.get_url_string, Urlparse.get_domain.
  destruct (validate_schema (strip short_url)) as [url|e] eqn:Hs.
  - destruct (urlparse url) as [parsed|] eqn:Hp.
    + destruct (urlparse request_url) as [own|] eqn:Ho; cbn [mbind result_bind].
      * cbn [andb negb app].
        destruct (contains (Urlparse.netloc own) (Urlparse.netloc parsed)
                  && negb (bool_decide (Urlparse.path parsed = []))
                  && bool_decide (1 < length (Urlparse.path parsed))%nat)
          eqn:Hv; cbn [mbind result_bind].
        -- split; [done|]. split.
           { intros url' [= <-] [?|?]; congruence. }
           intros url' key [= <- <-].
           destruct (validate_schema_return _ _ Hs) as [Hor Hin].
           apply andb_prop in Hv
             as [[Hdom _]%andb_prop Hlen%bool_decide_eq_true].
           split; [done|]. split; [done|]. exists parsed, own.
           assert (slice_from (Urlparse.path parsed) 1
                   = drop 1 (Urlparse.path parsed)) as ->.
           { unfold slice_from, slice_bound. f_equal.
             cbn [Z.ltb Z.compare]. lia. }
           repeat split; try done.
           intros E. apply (f_equal length) in E. rewrite length_drop in E.
           cbn [length] in E. lia.
        -- split; [done|]. split; [|done].
           intros url' [= <-] [?|?]; congruence.
      * split; [|split; [done|done]].
        intros e [= <-]. split; [done|]. exists url. split; [done|by right].
    + split; [|split; [done|done]].
      intros e [= <-]. split; [done|]. exists url. split; [done|by left].
  - unfold validate_schema in Hs.
    destruct (decide (schema_of (strip short_url) ∈ _)); [done|].
    destruct (decide (schema_of (strip short_url) = [])); [done|].
    injection Hs as <-. done.
Qed.

End UrlparseExtra.

Lemma check_status_outcome_witness :
  Urlparse.check_status (λ _, None)
    (sample_get 503 (u "Backend said 404") []) (u "http://[@example.com/page")
  = Raise ValueError.
Proof.
  apply (check_status_outcome (λ _, None)
           (sample_get 503 (u "Backend said 404") [])
           (u "http://[@example.com/page")
           (Response 503 (u "Backend said 404") [])); [reflexivity|].
  cbn. lia.
Defined.

Lemma reverse_validate_spec_witness :
  Urlparse.reverse_validate (λ _, None) (u "http://example.com/")
    (u " http://[::1/abc ")
  = Raise ValueError.
Proof.
  apply (proj1 (proj2 (reverse_validate_spec (λ _, None)
                         (u "http://example.com/") (u " http://[::1/abc ")))
           (u "http://[::1/abc")); [reflexivity|by left].
Defined.


End AdmissionExtra.
